(** * Screen recorder: save/transcode orchestrator, display resolutions and
    recording sessions

    Shallow embedding of the Electron main-process handlers
    ([GET_SCREEN_RESOLUTIONS] with [calculateAspectRatio], [save-file] with
    [getVideoInfo], [start-recording] with the [close] callback of its
    child process, and [stop-recording]) and of the renderer ([startRecording],
    the clock, the resolution picker with the constraints of [setupStream],
    and the [ondataavailable] and [onstop] handlers of the recorder), followed
    by the properties the specification states about them and by further
    properties of the code.

    Conventions of the embedding.
    - JavaScript strings are [string]s over ASCII.
    - A number produced by [parseInt] is a [jsint]: [NaN] or an integer.  The
      embedding is exact for safe integers (magnitude below 2^53).
    - Ratios are extended rationals ([xnum]): the quotients compared by the
      code are quotients of display-sized integers, for which comparing the
      IEEE double with a two-digit literal agrees with the exact comparison.
    - The file system is a finite map from paths to contents; every call of
      the [fs] module may be failed by the host ([Save.host]), which also
      answers for the clock, [path.join], [Number], ffprobe and ffmpeg.  The
      external tools are taken to terminate.
    - An [async] handler runs in turns of the event loop, one turn from a
      delivery to the next [await] ([Session.step]). *)

From Stdlib Require Import ZArith QArith Qround Lqa String Ascii List Lia.
From Stdlib Require Import DecimalString DecimalN DecimalPos.
From Stdlib Require Import Sorted Permutation.
From Equations Require Import Equations.
From stdpp Require Import gmap strings list.
Import ListNotations.

Local Open Scope string_scope.
Local Open Scope Z_scope.

(** Contents of buffers and files. *)
Abbreviation bytes := (list Byte.byte).

(* ===================================================================== *)
(** ** JavaScript values used by the handlers *)
(* ===================================================================== *)

Module Js.

(** Result of [parseInt], and of the arithmetic the handlers do on it. *)
Inductive jsint : Type :=
| NaN
| Int (z : Z).

(** Extended rationals: the value of a JavaScript division. *)
Inductive xnum : Type :=
| XNaN
| XInf (negative : bool)
| XFin (q : Q).

Definition Qltb (p q : Q) : bool :=
  (Qnum p * Z.pos (Qden q) <? Qnum q * Z.pos (Qden p))%Z.

Definition Qzerob (q : Q) : bool := (Qnum q =? 0)%Z.

(** [a / b] on numbers (zero divisors are the positive zero). *)
Definition xdiv (a b : xnum) : xnum :=
  match a, b with
  | XNaN, _ | _, XNaN => XNaN
  | XInf _, XInf _ => XNaN
  | XInf n, XFin q => XInf (xorb n (Qltb q 0))
  | XFin _, XInf _ => XFin 0
  | XFin p, XFin q =>
      if Qzerob q then
        if Qzerob p then XNaN else XInf (Qltb p 0)
      else XFin (p / q)
  end.

(** [a > q] and [a < q] against a finite literal. *)
Definition xgt (a : xnum) (q : Q) : bool :=
  match a with
  | XNaN => false
  | XInf n => negb n
  | XFin p => Qltb q p
  end.

Definition xlt (a : xnum) (q : Q) : bool :=
  match a with
  | XNaN => false
  | XInf n => n
  | XFin p => Qltb p q
  end.

(** Truthiness of a number: [0] and [NaN] are falsy. *)
Definition truthy (a : xnum) : bool :=
  match a with
  | XNaN => false
  | XInf _ => true
  | XFin q => negb (Qzerob q)
  end.

(** [a || b] on numbers. *)
Definition or_else (a b : xnum) : xnum := if truthy a then a else b.

Definition of_Z (z : Z) : xnum := XFin (inject_Z z).

(** [Math.round]: the nearest integer, halves rounded up. *)
Definition Math_round (q : Q) : Z := Qfloor (q + (1 # 2)).

(** Decimal rendering of an integer, as a template literal does it. *)
Definition udec (n : N) : string := NilEmpty.string_of_uint (N.to_uint n).

Definition dec (z : Z) : string :=
  if z <? 0 then "-" +:+ udec (Z.to_N (- z)) else udec (Z.to_N z).

Definition render (n : jsint) : string :=
  match n with
  | NaN => "NaN"
  | Int z => dec z
  end.

(** White space skipped by [parseInt] (ASCII part). *)
Definition is_ws (c : ascii) : bool :=
  let n := N_of_ascii c in
  ((9 <=? n) && (n <=? 13) || (n =? 32))%N.

Fixpoint trim_start (s : string) : string :=
  match s with
  | String c r => if is_ws c then trim_start r else s
  | EmptyString => s
  end.

Definition digit_val (c : ascii) : option Z :=
  let n := N_of_ascii c in
  if ((48 <=? n) && (n <=? 57))%N then Some (Z.of_N n - 48) else None.

(** Value of the longest prefix of decimal digits; [acc] is [None] until a
    digit has been read. *)
Fixpoint read_digits (s : string) (acc : option Z) : option Z :=
  match s with
  | String c r =>
      match digit_val c with
      | Some d => read_digits r (Some (10 * default 0 acc + d))
      | None => acc
      end
  | EmptyString => acc
  end.

(** [parseInt(s, 10)]. *)
Definition parseInt (s : string) : jsint :=
  let body (neg : bool) (r : string) :=
    match read_digits r None with
    | Some v => Int (if neg then - v else v)
    | None => NaN
    end in
  match trim_start s with
  | String c r =>
      if Ascii.eqb c "-" then body true r
      else if Ascii.eqb c "+" then body false r
      else body false (String c r)
  | EmptyString => NaN
  end.

(** [s.split(sep)] for a one-character separator. *)
Fixpoint split (sep : ascii) (s : string) : list string :=
  match s with
  | EmptyString => [""]
  | String c r =>
      if Ascii.eqb c sep then "" :: split sep r
      else match split sep r with
           | h :: t => String c h :: t
           | [] => [String c ""]
           end
  end.

(** [h % 2 === 0 ? h : h - 1] on an integer; [%] is the truncated
    remainder. *)
Definition evenHeight (h : Z) : Z := if Z.rem h 2 =? 0 then h else h - 1.

(** The same expression on the result of [parseInt]. *)
Definition evenHeight_js (h : jsint) : jsint :=
  match h with
  | NaN => NaN
  | Int z => Int (evenHeight z)
  end.

End Js.

Import Js.

(* ===================================================================== *)
(** ** Display resolutions: [GET_SCREEN_RESOLUTIONS] *)
(* ===================================================================== *)

Module Display.

(** A display as [screen.getAllDisplays()] reports it: its [bounds] (always
    present, so that [display.bounds || display.size || display] is
    [display.bounds]) and its scale factor, a rational here; [0] stands for
    an absent factor. *)
Record display : Type := mkDisplay {
  bounds_width : Z;
  bounds_height : Z;
  display_scaleFactor : Q
}.

(** An element of the array the handler resolves with. *)
Record resolution : Type := mkResolution {
  width : Z;
  height : Z;
  scaleFactor : Q;
  aspectRatio : string;
  label : string
}.

(** The loop of [gcd]: [while (b !== 0) { temp = b; b = a % b; a = temp }]. *)
Equations? gcd_loop (a b : Z) : Z by wf (Z.abs_nat b) lt :=
  gcd_loop a b with Z.eq_dec b 0 := {
    | left _ => a
    | right _ => gcd_loop b (Z.rem a b) }.
Proof.
  pose proof (Z.rem_bound_abs a b ltac:(assumption)). lia.
Defined.

Definition gcd (a b : Z) : Z :=
  let a := Z.abs a in
  let b := Z.abs b in
  if a =? 0 then b
  else if b =? 0 then a
  else gcd_loop a b.

Definition calculateAspectRatio (width height : Z) : string :=
  let divisor := gcd width height in
  if divisor =? 0 then "16:9"
  else
    let ratioWidth := (inject_Z width / inject_Z divisor)%Q in
    let ratioHeight := (inject_Z height / inject_Z divisor)%Q in
    if Qltb 100 ratioWidth || Qltb 100 ratioHeight then "16:9"
    else dec (Math_round ratioWidth) +:+ ":" +:+ dec (Math_round ratioHeight).

(** The aspect-ratio label chosen by the handler. *)
Definition aspectRatioOf (width height : Z) : string :=
  let ratio := xdiv (of_Z width) (of_Z height) in
  if xgt ratio (17 # 10) && xlt ratio (18 # 10) then "16:9"
  else if xgt ratio (13 # 10) && xlt ratio (14 # 10) then "4:3"
  else if xgt ratio (15 # 10) && xlt ratio (16 # 10) then "3:2"
  else if xgt ratio (23 # 10) && xlt ratio (24 # 10) then "21:9"
  else calculateAspectRatio width height.

(** [display.scaleFactor || 1]. *)
Definition scaleFactorOf (d : display) : Q :=
  if Qzerob (display_scaleFactor d) then 1%Q else display_scaleFactor d.

(** The values the handler computes and only logs. *)
Definition scaledWidth (d : display) : Z :=
  Math_round (inject_Z (bounds_width d) * scaleFactorOf d).

Definition scaledHeight (d : display) : Z :=
  Math_round (inject_Z (bounds_height d) * scaleFactorOf d).

(** The body of [displays.map(display => ...)]. *)
Definition resolutionOf (d : display) : resolution :=
  let width := bounds_width d in
  let height := bounds_height d in
  let scaleFactor := scaleFactorOf d in
  let aspectRatio := aspectRatioOf width height in
  let evenHeight := evenHeight height in
  {| width := width;
     height := evenHeight;
     scaleFactor := scaleFactor;
     aspectRatio := aspectRatio;
     label := dec width +:+ "×" +:+ dec evenHeight +:+ " (" +:+ aspectRatio
              +:+ ") - Native" |}.

(** The handler; [None] stands for [screen.getAllDisplays()] throwing, which
    the [catch] block turns into the empty array. *)
Definition getScreenResolutions (displays : option (list display))
  : list resolution :=
  match displays with
  | Some ds => map resolutionOf ds
  | None => []
  end.

End Display.

(* ===================================================================== *)
(** ** The save/transcode orchestrator: [save-file] and [getVideoInfo] *)
(* ===================================================================== *)

Module Save.

(** The argument object of the [save-file] channel.  An absent [buffer],
    [resolution] or [bitrate] is [None]. *)
Record request : Type := mkRequest {
  filePath : string;
  buffer : option bytes;
  format : string;
  resolution : option string;
  bitrate : option Z;
  preserveAspectRatio : bool
}.

(** What the handler resolves with: [{ success: true }] or
    [{ success: false, error }]. *)
Inductive result : Type :=
| Success
| Failure (error : string).

(** The command assembled with fluent-ffmpeg. *)
Record ffmpeg_command : Type := mkCommand {
  input : string;
  inputOptions : list string;
  videoBitrate : Z;
  videoFilters : string;
  output : string;
  outputOptions : list string
}.

(** One stream of the metadata returned by [ffprobe]. *)
Record stream : Type := mkStream {
  codec_type : string;
  stream_width : option Z;
  stream_height : option Z;
  stream_duration : option string;
  display_aspect_ratio : option string;
  pix_fmt : option string
}.

(** [metadata.streams]; [None] when the field is missing, so that
    [metadata.streams.find] throws. *)
Record metadata : Type := mkMetadata {
  streams : option (list stream)
}.

(** The two arguments of the [ffprobe] callback. *)
Inductive probe_outcome : Type :=
| ProbeError (err : string)
| ProbeData (m : metadata).

(** The object [getVideoInfo] resolves with; the fallback object has only
    [width] and [height]. *)
Record video_info : Type := mkInfo {
  info_width : Z;
  info_height : Z;
  info_duration : option string;
  info_displayAspectRatio : option xnum;
  info_pixelFormat : option string
}.

(** How a run of the external transcoder ends: the [end] event with the
    encoded output, or the [error] event, possibly leaving a partial file. *)
Inductive transcode_outcome : Type :=
| Encoded (out : bytes)
| Failed (err : string) (residue : option bytes).

(** A failing [fs] call: the message of the error and what the call left
    at its target. *)
Record io_fault : Type := mkFault {
  fault_message : string;
  fault_residue : option bytes
}.

(** Everything the handler obtains from outside: clock, paths, the
    conversion [Number], the external tools and which [fs] calls fail. *)
Record host : Type := mkHost {
  now : Z;
  temp_dir : string;
  path_join : string -> string -> string;
  Number : string -> xnum;
  writeFile_fault : option io_fault;
  stat_fault : option string;
  copyFile_fault : option io_fault;
  unlink_fault : option string;
  ffprobe : option bytes -> probe_outcome;
  ffmpeg : ffmpeg_command -> option bytes -> transcode_outcome
}.

(** Console lines of the two functions (the lines streamed from the running
    ffmpeg process are decided by that process and are left out). *)
Inductive console : Type :=
| ErrEmptyBuffer
| LogTempPath (path : string)
| LogTempSize (size : Z)
| LogWebmSaved (path : string)
| LogInputDims (inputWidth inputHeight : Z) (inputAspectRatio : xnum)
| LogTargetDims (width height : jsint) (preserve : bool)
| LogScaling (preserve : bool) (scaleFilter : string)
| LogConverting (format : string) (width height : jsint) (videoBitrate : Z)
| LogConversionComplete
| ErrFfmpeg (err : string)
| LogFileSaved (path : string)
| ErrSaveFile (err : string)
| LogTempDeleted
| ErrDeletingTemp (err : string)
| ErrProbing (err : string)
| LogVideoStream (s : stream)
| WarnNoVideoStream
| ErrParsingMetadata.

(** Observable actions, in program order. *)
Inductive event : Type :=
| FsWriteFile (path : string) (data : bytes)
| FsStat (path : string)
| FsCopyFile (src dest : string)
| FsUnlink (path : string)
| RunFfprobe (path : string)
| RunFfmpeg (cmd : ffmpeg_command)
| Console (line : console).

(** State threaded through the handler: the disk, the actions so far and
    the local variable [tempPath]. *)
Record state : Type := mkState {
  disk : gmap string bytes;
  trace : list event;
  tempPath : option string
}.

(** Computations that may throw an error (its [message]). *)
Definition exec (A : Type) : Type := state -> (string + A) * state.

#[global] Instance exec_ret : MRet exec := fun A a st => (inr a, st).

#[global] Instance exec_bind : MBind exec := fun A B k m st =>
  match m st with
  | (inr a, st') => k a st'
  | (inl e, st') => (inl e, st')
  end.

Definition throw {A : Type} (e : string) : exec A := fun st => (inl e, st).

(** [try { m } catch (e) { h e }]. *)
Definition try_catch {A : Type} (m : exec A) (h : string -> exec A) : exec A :=
  fun st =>
    match m st with
    | (inl e, st') => h e st'
    | (inr a, st') => (inr a, st')
    end.

(** [try { m } finally { c }]: [c] always runs; the completion of [m] is
    kept unless [c] itself throws. *)
Definition try_finally {A : Type} (m : exec A) (c : exec unit) : exec A :=
  fun st =>
    let '(r, st1) := m st in
    match c st1 with
    | (inr _, st2) => (r, st2)
    | (inl e, st2) => (inl e, st2)
    end.

Definition emit (e : event) : exec unit := fun st =>
  (inr tt, mkState (disk st) (trace st ++ [e]) (tempPath st)).

Definition log (line : console) : exec unit := emit (Console line).

Definition set_disk (d : gmap string bytes) : exec unit := fun st =>
  (inr tt, mkState d (trace st) (tempPath st)).

Definition get_disk : exec (gmap string bytes) := fun st => (inr (disk st), st).

Definition set_tempPath (p : string) : exec unit := fun st =>
  (inr tt, mkState (disk st) (trace st) (Some p)).

Definition get_tempPath : exec (option string) := fun st => (inr (tempPath st), st).

(** Leave [residue], when there is one, at [path]. *)
Definition leave (path : string) (residue : option bytes) : exec unit :=
  match residue with
  | Some r => d ← get_disk; set_disk (<[path := r]> d)
  | None => mret tt
  end.

Definition ENOENT : string := "ENOENT: no such file or directory".

Section Handler.

Variable H : host.

(** [fs.writeFile(path, Buffer.from(data))]. *)
Definition writeFile (path : string) (data : bytes) : exec unit :=
  emit (FsWriteFile path data);;
  match writeFile_fault H with
  | Some f => leave path (fault_residue f);; throw (fault_message f)
  | None => d ← get_disk; set_disk (<[path := data]> d)
  end.

(** [(await fs.stat(path)).size]. *)
Definition stat_size (path : string) : exec Z :=
  emit (FsStat path);;
  match stat_fault H with
  | Some e => throw e
  | None =>
      d ← get_disk;
      match d !! path with
      | Some content => mret (Z.of_nat (length content))
      | None => throw ENOENT
      end
  end.

(** [fs.copyFile(src, dest)]. *)
Definition copyFile (src dest : string) : exec unit :=
  emit (FsCopyFile src dest);;
  match copyFile_fault H with
  | Some f => leave dest (fault_residue f);; throw (fault_message f)
  | None =>
      d ← get_disk;
      match d !! src with
      | Some content => set_disk (<[dest := content]> d)
      | None => throw ENOENT
      end
  end.

(** [fs.unlink(path)]. *)
Definition unlink (path : string) : exec unit :=
  emit (FsUnlink path);;
  match unlink_fault H with
  | Some e => throw e
  | None =>
      d ← get_disk;
      match d !! path with
      | Some _ => set_disk (delete path d)
      | None => throw ENOENT
      end
  end.

Definition fallback_info : video_info := mkInfo 1920 1080 None None None.

(** [n || d] where [n] may be absent. *)
Definition or_default (n : option Z) (d : Z) : Z :=
  match n with
  | Some z => if z =? 0 then d else z
  | None => d
  end.

(** The [display_aspect_ratio] branch of [getVideoInfo]: the value of
    [displayAspectRatio] before the dimension fallback ([None] is [null]). *)
Definition parse_dar (dar : option string) : option xnum :=
  match dar with
  | Some s =>
      if String.eqb s "" then None
      else
        match map (Number H) (split ":" s) with
        | w :: h :: _ => if truthy w && truthy h then Some (xdiv w h) else None
        | _ => None
        end
  | None => None
  end.

(** The callback of [ffmpeg.ffprobe] inside [getVideoInfo]: the value the
    promise resolves with and the lines it prints. *)
Definition videoInfoOf (p : probe_outcome) : video_info * list console :=
  match p with
  | ProbeError err => (fallback_info, [ErrProbing err])
  | ProbeData m =>
      match streams m with
      | None => (fallback_info, [ErrParsingMetadata])
      | Some ss =>
          match List.find (fun s => String.eqb (codec_type s) "video") ss with
          | Some videoStream =>
              let width := or_default (stream_width videoStream) 1920 in
              let height := or_default (stream_height videoStream) 1080 in
              let displayAspectRatio :=
                match parse_dar (display_aspect_ratio videoStream) with
                | Some r => if truthy r then r else xdiv (of_Z width) (of_Z height)
                | None => xdiv (of_Z width) (of_Z height)
                end in
              (mkInfo width height (stream_duration videoStream)
                      (Some displayAspectRatio) (pix_fmt videoStream),
               [LogVideoStream videoStream])
          | None => (fallback_info, [WarnNoVideoStream])
          end
      end
  end.

(** [getVideoInfo(filePath)]: the promise never rejects. *)
Definition getVideoInfo (path : string) : exec video_info :=
  emit (RunFfprobe path);;
  d ← get_disk;
  let '(info, lines) := videoInfoOf (ffprobe H (d !! path)) in
  mapM log lines;;
  mret info.

(** The promise around the ffmpeg command: resolved by [end], rejected by
    [error]. *)
Definition run (cmd : ffmpeg_command) : exec unit :=
  emit (RunFfmpeg cmd);;
  d ← get_disk;
  match ffmpeg H cmd (d !! input cmd) with
  | Encoded out =>
      set_disk (<[output cmd := out]> d);;
      log LogConversionComplete
  | Failed err residue =>
      leave (output cmd) residue;;
      log (ErrFfmpeg err);;
      throw err
  end.

(** Resolution parsing: defaults [1920] and [1080], overwritten when
    [resolution] is truthy and splits on ['x'] into exactly two parts. *)
Definition parse_resolution (resolution : option string) : jsint * jsint :=
  let initial := (Int 1920, Int 1080) in
  match resolution with
  | Some r =>
      if String.eqb r "" then initial
      else
        match split "x" r with
        | [w; h] => (parseInt w, evenHeight_js (parseInt h))
        | _ => initial
        end
  | None => initial
  end.

(** [bitrate ? Math.floor(bitrate / 1000) : 5000]. *)
Definition videoBitrateOf (bitrate : option Z) : Z :=
  match bitrate with
  | Some b => if b =? 0 then 5000 else b / 1000
  | None => 5000
  end.

Definition scaleFilterOf (preserve : bool) (width height : jsint) : string :=
  if preserve then
    "scale=" +:+ render width +:+ ":" +:+ render height
    +:+ ":force_original_aspect_ratio=decrease,pad=" +:+ render width
    +:+ ":" +:+ render height +:+ ":(ow-iw)/2:(oh-ih)/2"
  else
    "scale=" +:+ render width +:+ ":" +:+ render height.

Definition commandOf (tempPath : string) (videoBitrate : Z)
    (scaleFilter filePath : string) : ffmpeg_command :=
  {| input := tempPath;
     inputOptions := ["-fflags"; "+genpts"];
     videoBitrate := videoBitrate;
     videoFilters := scaleFilter;
     output := filePath;
     outputOptions := ["-c:v"; "libx264"; "-preset"; "fast"; "-crf"; "22";
                       "-pix_fmt"; "yuv420p"; "-movflags"; "+faststart"] |}.

(** What the handler derives from the probed information: the arguments of
    its [Input video dimensions] line. *)
Definition inputDims (inputInfo : video_info) : console :=
  let inputWidth := or_default (Some (info_width inputInfo)) 1920 in
  let inputHeight := or_default (Some (info_height inputInfo)) 1080 in
  let inputAspectRatio :=
    match info_displayAspectRatio inputInfo with
    | Some a => or_else a (xdiv (of_Z inputWidth) (of_Z inputHeight))
    | None => xdiv (of_Z inputWidth) (of_Z inputHeight)
    end in
  LogInputDims inputWidth inputHeight inputAspectRatio.

(** The path written to [tempPath]. *)
Definition temp_path : string :=
  path_join H (temp_dir H) ("temp-" +:+ dec (now H) +:+ ".webm").

Definition buffer_empty (b : option bytes) : bool :=
  match b with
  | Some data => Nat.eqb (length data) 0
  | None => true
  end.

(** The [try] block of the handler. *)
Definition save_try (r : request) : exec result :=
  if buffer_empty (buffer r) then
    log ErrEmptyBuffer;;
    mret (Failure "No recording data received. The recording may be empty.")
  else
    let tempPath := temp_path in
    set_tempPath tempPath;;
    log (LogTempPath tempPath);;
    writeFile tempPath (default [] (buffer r));;
    size ← stat_size tempPath;
    log (LogTempSize size);;
    if size =? 0 then mret (Failure "Recording file is empty.")
    else if String.eqb (format r) "webm" then
      copyFile tempPath (filePath r);;
      log (LogWebmSaved (filePath r));;
      mret Success
    else
      let '(width, height) := parse_resolution (resolution r) in
      let videoBitrate := videoBitrateOf (bitrate r) in
      inputInfo ← getVideoInfo tempPath;
      log (inputDims inputInfo);;
      log (LogTargetDims width height (preserveAspectRatio r));;
      let scaleFilter := scaleFilterOf (preserveAspectRatio r) width height in
      log (LogScaling (preserveAspectRatio r) scaleFilter);;
      log (LogConverting (format r) width height videoBitrate);;
      run (commandOf tempPath videoBitrate scaleFilter (filePath r));;
      log (LogFileSaved (filePath r));;
      mret Success.

(** The [catch] block. *)
Definition save_catch (error : string) : exec result :=
  log (ErrSaveFile error);;
  mret (Failure error).

(** The [finally] block. *)
Definition save_finally : exec unit :=
  tempPath ← get_tempPath;
  match tempPath with
  | Some p =>
      try_catch (unlink p;; log LogTempDeleted)
                (fun err => log (ErrDeletingTemp err))
  | None => mret tt
  end.

(** The handler of [save-file]. *)
Definition save_file (r : request) : exec result :=
  try_finally (try_catch (save_try r) save_catch) save_finally.

End Handler.

(** One call of the handler on a disk: its completion, the disk and the
    actions it leaves. *)
Definition initial (d : gmap string bytes) : state := mkState d [] None.

Definition save (H : host) (d : gmap string bytes) (r : request)
  : (string + result) * state :=
  save_file H r (initial d).

Definition completion (o : (string + result) * state) : string + result := fst o.
Definition final_disk (o : (string + result) * state) : gmap string bytes := disk (snd o).
Definition actions (o : (string + result) * state) : list event := trace (snd o).

(** The commands handed to the transcoder, and the probes made. *)
Definition transcoder_runs (es : list event) : list ffmpeg_command :=
  omap (fun e => match e with RunFfmpeg c => Some c | _ => None end) es.

Definition probe_runs (es : list event) : list string :=
  omap (fun e => match e with RunFfprobe p => Some p | _ => None end) es.

End Save.

(* ===================================================================== *)
(** ** Recording sessions of the main process: [start-recording] *)
(* ===================================================================== *)

Module Session.

(** What a handler resolves with. *)
Record response : Type := mkResponse {
  success : bool;
  message : string
}.

(** A handler suspended at one of its [await]s. *)
Inductive suspended : Type :=
| AwaitDirectories (sourceId : string) (audioDeviceId : option string)
| AwaitMetadata (sourceId : string) (audioDeviceId : option string).

(** A spawned ffmpeg process that has not emitted [close]. *)
Record process : Type := mkProcess {
  pid : nat;
  args : list string
}.

(** The module-level variables of the main process, with the handlers in
    flight, the live child processes and the answers given so far. *)
Record main : Type := mkMain {
  isRecording : bool;
  ffmpegProcess : option nat;
  recordingPath : string;
  encryptionKey : option bytes;
  pending : list (nat * suspended);
  running : list process;
  spawned : nat;
  metadata_files : list string;
  responses : list (nat * response);
  stopped_events : list (string * bool)
}.

Definition boot : main :=
  mkMain false None "" None [] [] 0 [] [] [].

(** What the event loop delivers: a request on the channel, the settlement
    of the promise a handler awaits, or the [close] event of a child. *)
Inductive delivery : Type :=
| StartRecording (request : nat) (sourceId : string) (audioDeviceId : option string)
| DirectoriesReady (request : nat) (recordingsPath timestamp : string) (key : bytes)
| DirectoriesFailed (request : nat) (error : string)
| MetadataWritten (request : nat)
| MetadataFailed (request : nat) (error : string)
| ProcessClosed (child : nat) (code : Z).

Definition ffmpegArgs (sourceId : string) (audioDeviceId : option string)
    (recordingPath : string) : list string :=
  ["-y"; "-f"; "avfoundation"; "-i";
   sourceId +:+ match audioDeviceId with
                | Some a => if String.eqb a "" then "" else ":" +:+ a
                | None => ""
                end;
   "-c:v"; "libx264"; "-preset"; "ultrafast"; "-tune"; "zerolatency";
   "-pix_fmt"; "yuv420p"; "-r"; "30"; "-g"; "30"; "-keyint_min"; "30";
   "-profile:v"; "baseline"; "-level"; "3.0"; "-crf"; "23";
   "-movflags"; "+faststart";
   recordingPath +:+ ".mp4"].

Fixpoint take_pending (request : nat) (l : list (nat * suspended))
  : option suspended * list (nat * suspended) :=
  match l with
  | [] => (None, [])
  | (i, k) :: r =>
      if Nat.eqb i request then (Some k, r)
      else let '(found, r') := take_pending request r in (found, (i, k) :: r')
  end.

Definition respond (request : nat) (r : response) (m : main) : main :=
  mkMain (isRecording m) (ffmpegProcess m) (recordingPath m) (encryptionKey m)
         (pending m) (running m) (spawned m) (metadata_files m)
         (responses m ++ [(request, r)]) (stopped_events m).

Definition suspend (request : nat) (k : suspended) (m : main) : main :=
  mkMain (isRecording m) (ffmpegProcess m) (recordingPath m) (encryptionKey m)
         (pending m ++ [(request, k)]) (running m) (spawned m)
         (metadata_files m) (responses m) (stopped_events m).

Definition failed_to_start (error : string) : response :=
  mkResponse false ("Failed to start recording: " +:+ error).

Section Steps.

(** [path.join]. *)
Variable join : string -> string -> string.

(** One turn of the event loop: the code that runs, without interruption,
    from the delivery to the next [await] or [return].
    - [StartRecording]: the guard on [isRecording], then the handler
      suspends at [await ensureDirectories()].
    - [DirectoriesReady]: the assignment of [recordingPath], the new
      encryption key, then the handler suspends at [await writeFile(...)]
      of the metadata file.
    - [MetadataWritten]: the arguments are built from the [recordingPath] of
      that moment, ffmpeg is spawned and stored in [ffmpegProcess],
      [isRecording] is set and the handler returns.
    - [DirectoriesFailed], [MetadataFailed]: the [catch] block.
    - [ProcessClosed]: the [close] callback of a live child. *)
Definition step (d : delivery) (m : main) : main :=
  match d with
  | StartRecording request sourceId audioDeviceId =>
      if isRecording m then
        respond request (mkResponse false "Already recording") m
      else
        suspend request (AwaitDirectories sourceId audioDeviceId) m
  | DirectoriesReady request recordingsPath timestamp key =>
      match take_pending request (pending m) with
      | (Some (AwaitDirectories sourceId audioDeviceId), rest) =>
          let recordingPath := join recordingsPath ("recording-" +:+ timestamp) in
          mkMain (isRecording m) (ffmpegProcess m) recordingPath (Some key)
                 (rest ++ [(request, AwaitMetadata sourceId audioDeviceId)])
                 (running m) (spawned m)
                 (metadata_files m ++ [recordingPath +:+ "-metadata.json"])
                 (responses m) (stopped_events m)
      | _ => m
      end
  | MetadataWritten request =>
      match take_pending request (pending m) with
      | (Some (AwaitMetadata sourceId audioDeviceId), rest) =>
          let child := spawned m in
          respond request (mkResponse true "Recording started")
            (mkMain true (Some child) (recordingPath m) (encryptionKey m) rest
                    (running m ++
                       [mkProcess child
                          (ffmpegArgs sourceId audioDeviceId (recordingPath m))])
                    (S child) (metadata_files m) (responses m)
                    (stopped_events m))
      | _ => m
      end
  | DirectoriesFailed request error =>
      match take_pending request (pending m) with
      | (Some (AwaitDirectories _ _), rest) =>
          respond request (failed_to_start error)
            (mkMain (isRecording m) (ffmpegProcess m) (recordingPath m)
                    (encryptionKey m) rest (running m) (spawned m)
                    (metadata_files m) (responses m) (stopped_events m))
      | _ => m
      end
  | MetadataFailed request error =>
      match take_pending request (pending m) with
      | (Some (AwaitMetadata _ _), rest) =>
          respond request (failed_to_start error)
            (mkMain (isRecording m) (ffmpegProcess m) (recordingPath m)
                    (encryptionKey m) rest (running m) (spawned m)
                    (metadata_files m) (responses m) (stopped_events m))
      | _ => m
      end
  | ProcessClosed child code =>
      if existsb (fun p => Nat.eqb (pid p) child) (running m) then
        mkMain false (ffmpegProcess m) (recordingPath m) (encryptionKey m)
               (pending m)
               (filter (fun p => pid p ≠ child) (running m))
               (spawned m) (metadata_files m) (responses m)
               (stopped_events m ++ [(recordingPath m, code =? 0)])
      else m
  end.

Definition deliver (ds : list delivery) (m : main) : main :=
  fold_left (fun m d => step d m) ds m.

End Steps.

(** The recordings in progress: the live ffmpeg children. *)
Definition active_sessions (m : main) : nat := length (running m).

End Session.


(* ===================================================================== *)
(** ** The renderer's [startRecording] and its button *)
(* ===================================================================== *)

Module Renderer.

(** [MediaRecorder.state]. *)
Inductive recorder_state : Type :=
| inactive
| recording
| paused.

(** The component state [startRecording] reads and writes. *)
Record app : Type := mkApp {
  selectedSource : option string;
  mediaRecorder : option recorder_state;
  isRecording : bool;
  recordedChunks : list bytes;
  recordingTime : Z;
  saveStatus : string;
  timerInterval : option nat
}.

(** [mediaRecorder.start(200)]: the platform starts an inactive recorder and
    throws for any other; [None] is the exception. *)
Definition start (st : recorder_state) : option recorder_state :=
  match st with
  | inactive => Some recording
  | _ => None
  end.

(** [startRecording]; [timer] is the handle [window.setInterval] returns and
    [None] an exception leaving the handler. *)
Definition startRecording (timer : nat) (a : app) : option app :=
  match mediaRecorder a with
  | Some st =>
      match start st with
      | Some st' =>
          Some (mkApp (selectedSource a) (Some st') true [] 0 "" (Some timer))
      | None => None
      end
  | None => Some a
  end.

(** [disabled={!selectedSource || isRecording}] on the Start button. *)
Definition start_disabled (a : app) : bool :=
  match selectedSource a with
  | Some _ => isRecording a
  | None => true
  end.

(** A click on the Start button: a disabled button runs no handler. *)
Definition clickStart (timer : nat) (a : app) : option app :=
  if start_disabled a then Some a else startRecording timer a.

End Renderer.

(* ===================================================================== *)
(** ** Elapsed time: [formatTime] and [formatDuration] *)
(* ===================================================================== *)

Module Timer.

(** [s.padStart(2, '0')]. *)
Definition padStart2 (s : string) : string :=
  match String.length s with
  | O => "00"
  | S O => "0" +:+ s
  | _ => s
  end.

(** [formatTime] of the recorder window; [seconds] is the integer counter
    the one-second tick increments. *)
Definition formatTime (seconds : Z) : string :=
  let hrs := seconds / 3600 in
  let mins := Z.rem seconds 3600 / 60 in
  let secs := Z.rem seconds 60 in
  padStart2 (dec hrs) +:+ ":" +:+ padStart2 (dec mins) +:+ ":"
  +:+ padStart2 (dec secs).

(** [formatDuration] of the consent window. *)
Definition formatDuration (seconds : Z) : string :=
  let mins := seconds / 60 in
  let secs := Z.rem seconds 60 in
  padStart2 (dec mins) +:+ ":" +:+ padStart2 (dec secs).

End Timer.

(* ===================================================================== *)
(** ** The resolution picker of the recorder window *)
(* ===================================================================== *)

Module Picker.

(** [Resolution], with the [scaleFactor] a native entry carries along; an
    absent [isNative] is [false]. *)
Record resolution : Type := mkResolution {
  width : Z;
  height : Z;
  label : string;
  aspectRatio : option string;
  scaleFactor : option Q;
  isNative : bool
}.

Definition DEFAULT_RESOLUTIONS : list resolution :=
  [mkResolution 3840 2160 "4K (3840×2160)" (Some "16:9") None false;
   mkResolution 2560 1440 "2K (2560×1440)" (Some "16:9") None false;
   mkResolution 1920 1080 "Full HD (1920×1080)" (Some "16:9") None false;
   mkResolution 1280 720 "HD (1280×720)" (Some "16:9") None false;
   mkResolution 854 480 "SD (854×480)" (Some "16:9") None false].

(** [{ ...res, isNative: true }]. *)
Definition nativeOf (res : Display.resolution) : resolution :=
  mkResolution (Display.width res) (Display.height res) (Display.label res)
    (Some (Display.aspectRatio res)) (Some (Display.scaleFactor res)) true.

(** [r => r.width === res.width && r.height === res.height]. *)
Definition same_size (res r : resolution) : bool :=
  (width r =? width res) && (height r =? height res).

(** [l.findIndex(p)], counting from [i]; [-1] when nothing is found. *)
Fixpoint findIndex_from {A : Type} (p : A -> bool) (l : list A) (i : Z) : Z :=
  match l with
  | [] => -1
  | x :: r => if p x then i else findIndex_from p r (i + 1)
  end.

Definition findIndex {A : Type} (p : A -> bool) (l : list A) : Z :=
  findIndex_from p l 0.

(** [l.filter((x, index) => f x index)], counting from [i]. *)
Fixpoint filter_from {A : Type} (f : A -> Z -> bool) (l : list A) (i : Z)
  : list A :=
  match l with
  | [] => []
  | x :: r =>
      if f x i then x :: filter_from f r (i + 1) else filter_from f r (i + 1)
  end.

(** The duplicate filter: an entry stays when it is the first of its
    size. *)
Definition dedupe (self : list resolution) : list resolution :=
  filter_from (fun res index => index =? findIndex (same_size res) self) self 0.

(** [.sort((a, b) => b.height - a.height)]: the stable sort by decreasing
    height, as an insertion from the right. *)
Fixpoint insert (a : resolution) (l : list resolution) : list resolution :=
  match l with
  | [] => [a]
  | b :: r => if height b - height a <=? 0 then a :: b :: r else b :: insert a r
  end.

Definition sort (l : list resolution) : list resolution :=
  fold_right insert [] l.

(** [allResolutions]. *)
Definition mergeResolutions (nativeResolutions : list Display.resolution)
  : list resolution :=
  sort (dedupe (map nativeOf nativeResolutions ++ DEFAULT_RESOLUTIONS)).

(** The two pieces of state the effect sets. *)
Record choices : Type := mkChoices {
  resolutions : list resolution;
  selectedResolution : resolution
}.

Definition initial_choices : choices :=
  mkChoices DEFAULT_RESOLUTIONS
    (mkResolution 1920 1080 "Full HD (1920×1080)" (Some "16:9") None false).

(** [getScreenResolutions] of the mount effect; [None] is a rejected or
    empty answer of the main process. *)
Definition getScreenResolutions (nativeResolutions : option (list Display.resolution))
    (c : choices) : choices :=
  match nativeResolutions with
  | Some (first :: rest) =>
      mkChoices (mergeResolutions (first :: rest)) (nativeOf first)
  | _ => c
  end.

(** The [onChange] of the resolution menu, from the two numbers of the
    chosen value on. *)
Definition chooseResolution (width' height' : Z) (c : choices) : choices :=
  match List.find (fun r => (width r =? width') && (height r =? height'))
          (resolutions c) with
  | Some resolution => mkChoices (resolutions c) resolution
  | None => c
  end.

(** The [mandatory] video constraints [setupStream] passes to
    [getUserMedia]. *)
Record mandatory : Type := mkMandatory {
  chromeMediaSourceId : string;
  minWidth : option Z;
  maxWidth : option Z;
  minHeight : option Z;
  maxHeight : option Z
}.

Definition constraintsOf (sourceId : string) (selected : resolution) : mandatory :=
  if isNative selected then mkMandatory sourceId None None None None
  else mkMandatory sourceId (Some (width selected)) (Some (width selected))
         (Some (height selected)) (Some (height selected)).

End Picker.

(* ===================================================================== *)
(** ** The recorder of a stream: [ondataavailable] and [onstop] *)
(* ===================================================================== *)

Module Capture.

(** What the handlers of a stream hold of the render that set the stream
    up. *)
Record settings : Type := mkSettings {
  selectedFormat : string;
  selectedResolution : Picker.resolution;
  selectedBitrate : Z;
  preserveAspectRatio : bool
}.

(** [recorder.ondataavailable] on the array [chunks] of [setupStream];
    [None] is an event without data. *)
Definition ondataavailable (data : option bytes) (chunks : list bytes)
  : list bytes :=
  match data with
  | Some blob => if 0 <? Z.of_nat (length blob) then chunks ++ [blob] else chunks
  | None => chunks
  end.

Definition upper (c : ascii) : ascii :=
  let n := N_of_ascii c in
  if ((97 <=? n) && (n <=? 122))%N then ascii_of_N (n - 32) else c.

(** [s.toUpperCase()] on ASCII. *)
Fixpoint toUpperCase (s : string) : string :=
  match s with
  | EmptyString => EmptyString
  | String c r => String (upper c) (toUpperCase r)
  end.

(** How the save dialog ends: the call fails, or it resolves with a path or
    without one. *)
Inductive dialog_answer : Type :=
| DialogFailed (err : string)
| DialogResult (filePath : option string).

(** The argument of the [save-file] call. *)
Definition requestOf (s : settings) (filePath : string) (buffer : bytes)
  : Save.request :=
  Save.mkRequest filePath (Some buffer) (selectedFormat s)
    (Some (dec (Picker.width (selectedResolution s)) +:+ "x"
           +:+ dec (Picker.height (selectedResolution s))))
    (Some (selectedBitrate s)) (preserveAspectRatio s).

(** What [onstop] leaves: the values given to [setSaveStatus], in order, the
    disk, and the actions of the main process. *)
Record stopped : Type := mkStopped {
  statuses : list string;
  disk_after : gmap string bytes;
  main_actions : list Save.event
}.

(** [recorder.onstop]. *)
Definition onstop (H : Save.host) (s : settings) (dialog : dialog_answer)
    (chunks : list bytes) (d : gmap string bytes) : stopped :=
  match chunks with
  | [] => mkStopped ["Error: No recording data collected"] d []
  | _ =>
      let blob := concat chunks in
      if Nat.eqb (length blob) 0 then
        mkStopped ["Processing recording..."; "Error: Recording is empty"] d []
      else
        match dialog with
        | DialogFailed _ =>
            mkStopped ["Processing recording..."; "Error saving recording"] d []
        | DialogResult None =>
            mkStopped ["Processing recording..."; "Save cancelled"] d []
        | DialogResult (Some filePath) =>
            if String.eqb filePath "" then
              mkStopped ["Processing recording..."; "Save cancelled"] d []
            else
              let saving :=
                "Saving and converting to " +:+ toUpperCase (selectedFormat s)
                +:+ "..." in
              let out := Save.save H d (requestOf s filePath blob) in
              mkStopped
                ["Processing recording..."; saving;
                 match Save.completion out with
                 | inr Save.Success =>
                     "Recording saved successfully to: " +:+ filePath
                 | inr (Save.Failure error) =>
                     "Error saving recording: " +:+ error
                 | inl _ => "Error saving recording"
                 end]
                (Save.final_disk out) (Save.actions out)
        end
  end.

(** What happens on a stream between two calls of [setupStream]; a stop
    comes with the host of its save and the answer of its dialog. *)
Inductive occurrence : Type :=
| Started
| Data (data : option bytes)
| Stopped (H : Save.host) (dialog : dialog_answer).

(** The array [chunks] and the disk, with the results of the stops so far. *)
Record stream : Type := mkStream {
  chunks : list bytes;
  disk : gmap string bytes;
  stops : list stopped
}.

(** [startRecording] empties the state [recordedChunks], not the array
    [chunks] the handlers fill and read. *)
Definition occur (s : settings) (o : occurrence) (st : stream) : stream :=
  match o with
  | Started => st
  | Data data => mkStream (ondataavailable data (chunks st)) (disk st) (stops st)
  | Stopped H dialog =>
      let result := onstop H s dialog (chunks st) (disk st) in
      mkStream (chunks st) (disk_after result) (stops st ++ [result])
  end.

Definition occur_all (s : settings) (os : list occurrence) (st : stream)
  : stream :=
  fold_left (fun st o => occur s o st) os st.

(** A stream right after [setupStream]. *)
Definition fresh (d : gmap string bytes) : stream := mkStream [] d [].

End Capture.

(* ===================================================================== *)
(** ** Stopping a recording of the main process: [stop-recording] *)
(* ===================================================================== *)

Module Lifecycle.

(** What the [stop-recording] handler resolves with. *)
Record stop_response : Type := mkStopResponse {
  stop_success : bool;
  stop_message : string;
  path : option string;
  encryptedPath : option string
}.

(** The handler suspended at one of its [await]s; [iv] is the value
    [randomBytes(16)] gives it once the child has closed. *)
Inductive stop_suspended : Type :=
| AwaitClose (child : nat) (iv : bytes)
| AwaitRead (metadataPath encryptedPath : string) (iv : bytes)
| AwaitWrite (encryptedPath : string).

(** The main process with its stop handlers in flight, the children sent
    [SIGTERM], the metadata files being rewritten (with the encrypted path
    and the vector they record) and the answers to stop requests. *)
Record world : Type := mkWorld {
  main : Session.main;
  stopping : list (nat * stop_suspended);
  signals : list nat;
  rewrites : list (string * string * bytes);
  stop_responses : list (nat * stop_response)
}.

Definition start (m : Session.main) : world := mkWorld m [] [] [] [].

(** What the event loop delivers: what concerns [start-recording], a stop
    request, or the settlement of the read or the write of the metadata
    file. *)
Inductive delivery : Type :=
| OfSession (d : Session.delivery)
| StopRecording (request : nat) (iv : bytes)
| MetadataRead (request : nat) (parse_error : option string)
| MetadataReadFailed (request : nat) (error : string)
| MetadataRewritten (request : nat)
| MetadataRewriteFailed (request : nat) (error : string).

Fixpoint take (request : nat) (l : list (nat * stop_suspended))
  : option stop_suspended * list (nat * stop_suspended) :=
  match l with
  | [] => (None, [])
  | (i, k) :: r =>
      if Nat.eqb i request then (Some k, r)
      else let '(found, r') := take request r in (found, (i, k) :: r')
  end.

Definition failed_to_stop (error : string) : stop_response :=
  mkStopResponse false ("Failed to stop recording: " +:+ error) None None.

Definition answer (request : nat) (r : stop_response) (w : world) : world :=
  mkWorld (main w) (stopping w) (signals w) (rewrites w)
    (stop_responses w ++ [(request, r)]).

(** The stop handlers woken by the [close] of [child]: with a key they go on
    to read the metadata file of the [recordingPath] of that moment, without
    one they return. *)
Fixpoint wake (child : nat) (m : Session.main) (l : list (nat * stop_suspended))
  : list (nat * stop_suspended) * list (nat * stop_response) :=
  match l with
  | [] => ([], [])
  | (i, k) :: r =>
      let '(still, answers) := wake child m r in
      match k with
      | AwaitClose c iv =>
          if Nat.eqb c child then
            match Session.encryptionKey m with
            | Some _ =>
                ((i, AwaitRead (Session.recordingPath m +:+ "-metadata.json")
                       (Session.recordingPath m +:+ "-encrypted.mp4") iv)
                   :: still, answers)
            | None =>
                (still,
                 (i, mkStopResponse true "Recording stopped"
                       (Some (Session.recordingPath m)) None) :: answers)
            end
          else ((i, k) :: still, answers)
      | _ => ((i, k) :: still, answers)
      end
  end.

Section Steps.

Variable join : string -> string -> string.

(** One turn of the event loop. *)
Definition step (d : delivery) (w : world) : world :=
  match d with
  | OfSession ((Session.ProcessClosed child _) as c) =>
      let m' := Session.step join c (main w) in
      if existsb (fun p => Nat.eqb (Session.pid p) child)
           (Session.running (main w)) then
        let '(still, answers) := wake child m' (stopping w) in
        mkWorld m' still (signals w) (rewrites w) (stop_responses w ++ answers)
      else w
  | OfSession c =>
      mkWorld (Session.step join c (main w)) (stopping w) (signals w)
        (rewrites w) (stop_responses w)
  | StopRecording request iv =>
      match Session.isRecording (main w), Session.ffmpegProcess (main w) with
      | true, Some child =>
          mkWorld (main w) (stopping w ++ [(request, AwaitClose child iv)])
            (signals w ++ [child]) (rewrites w) (stop_responses w)
      | _, _ =>
          answer request (mkStopResponse false "Not recording" None None) w
      end
  | MetadataRead request parse_error =>
      match take request (stopping w) with
      | (Some (AwaitRead metadataPath encrypted iv), rest) =>
          match parse_error with
          | None =>
              mkWorld (main w) (rest ++ [(request, AwaitWrite encrypted)])
                (signals w) (rewrites w ++ [(metadataPath, encrypted, iv)])
                (stop_responses w)
          | Some error =>
              answer request (failed_to_stop error)
                (mkWorld (main w) rest (signals w) (rewrites w)
                   (stop_responses w))
          end
      | _ => w
      end
  | MetadataReadFailed request error =>
      match take request (stopping w) with
      | (Some (AwaitRead _ _ _), rest) =>
          answer request (failed_to_stop error)
            (mkWorld (main w) rest (signals w) (rewrites w) (stop_responses w))
      | _ => w
      end
  | MetadataRewritten request =>
      match take request (stopping w) with
      | (Some (AwaitWrite encrypted), rest) =>
          answer request
            (mkStopResponse true "Recording stopped and encrypted"
               (Some (Session.recordingPath (main w))) (Some encrypted))
            (mkWorld (main w) rest (signals w) (rewrites w) (stop_responses w))
      | _ => w
      end
  | MetadataRewriteFailed request error =>
      match take request (stopping w) with
      | (Some (AwaitWrite _), rest) =>
          answer request (failed_to_stop error)
            (mkWorld (main w) rest (signals w) (rewrites w) (stop_responses w))
      | _ => w
      end
  end.

Definition deliver (ds : list delivery) (w : world) : world :=
  fold_left (fun w d => step d w) ds w.

End Steps.

End Lifecycle.

(* ===================================================================== *)
(** ** Vocabulary of the statements *)
(* ===================================================================== *)

(** [path.join] on two plain POSIX segments. *)
Definition posix_join (a b : string) : string := a +:+ "/" +:+ b.

(** Number of occurrences of a character. *)
Fixpoint occurrences (c : ascii) (s : string) : nat :=
  match s with
  | EmptyString => 0%nat
  | String a r => if Ascii.eqb a c then S (occurrences c r) else occurrences c r
  end.

(** [t] is a prefix of [s]. *)
Fixpoint starts_with (t s : string) : bool :=
  match t, s with
  | EmptyString, _ => true
  | String a t', String b s' => Ascii.eqb a b && starts_with t' s'
  | String _ _, EmptyString => false
  end.

(** [t] occurs somewhere in [s]. *)
Fixpoint contains (t s : string) : bool :=
  starts_with t s ||
  match s with
  | EmptyString => false
  | String _ r => contains t r
  end.

(** A well-formed resolution string: two integers in decimal around one
    ['x'], as the renderer builds it with a template literal. *)
Definition well_formed_resolution (s : string) : Prop :=
  exists w h : Z, s = dec w +:+ "x" +:+ dec h.

Definition is_digit (c : ascii) : bool :=
  match digit_val c with
  | Some _ => true
  | None => false
  end.

(** The characters a rendered number is made of. *)
Definition numeral_char (c : ascii) : bool :=
  is_digit c || Ascii.eqb c "-" || Ascii.eqb c "N" || Ascii.eqb c "a".

Fixpoint numeral (s : string) : bool :=
  match s with
  | EmptyString => true
  | String c r => numeral_char c && numeral r
  end.

(** Value of a decimal numeral read most significant digit first. *)
Fixpoint uint_val (d : Decimal.uint) (acc : Z) : Z :=
  match d with
  | Decimal.Nil => acc
  | Decimal.D0 l => uint_val l (10 * acc)
  | Decimal.D1 l => uint_val l (10 * acc + 1)
  | Decimal.D2 l => uint_val l (10 * acc + 2)
  | Decimal.D3 l => uint_val l (10 * acc + 3)
  | Decimal.D4 l => uint_val l (10 * acc + 4)
  | Decimal.D5 l => uint_val l (10 * acc + 5)
  | Decimal.D6 l => uint_val l (10 * acc + 6)
  | Decimal.D7 l => uint_val l (10 * acc + 7)
  | Decimal.D8 l => uint_val l (10 * acc + 8)
  | Decimal.D9 l => uint_val l (10 * acc + 9)
  end.

(** The handler up to its [finally] block. *)
Definition attempt (H : Save.host) (r : Save.request) (d : gmap string bytes)
  : (string + Save.result) * Save.state :=
  Save.try_catch (Save.save_try H r) Save.save_catch (Save.initial d).

(** What the [finally] block does to a state whose [tempPath] is [p]. *)
Definition cleaned (H : Save.host) (p : string) (st : Save.state) : Save.state :=
  match Save.unlink_fault H with
  | Some e =>
      Save.mkState (Save.disk st)
        (Save.trace st ++ [Save.FsUnlink p; Save.Console (Save.ErrDeletingTemp e)])
        (Save.tempPath st)
  | None =>
      match Save.disk st !! p with
      | Some _ =>
          Save.mkState (delete p (Save.disk st))
            (Save.trace st ++ [Save.FsUnlink p; Save.Console Save.LogTempDeleted])
            (Save.tempPath st)
      | None =>
          Save.mkState (Save.disk st)
            (Save.trace st ++
               [Save.FsUnlink p; Save.Console (Save.ErrDeletingTemp Save.ENOENT)])
            (Save.tempPath st)
      end
  end.

(** The same host with another outcome for [fs.unlink]. *)
Definition with_unlink_fault (f : option string) (H : Save.host) : Save.host :=
  Save.mkHost (Save.now H) (Save.temp_dir H) (Save.path_join H) (Save.Number H)
    (Save.writeFile_fault H) (Save.stat_fault H) (Save.copyFile_fault H) f
    (Save.ffprobe H) (Save.ffmpeg H).

(** The same host with another prober. *)
Definition with_ffprobe (p : option bytes -> Save.probe_outcome) (H : Save.host)
  : Save.host :=
  Save.mkHost (Save.now H) (Save.temp_dir H) (Save.path_join H) (Save.Number H)
    (Save.writeFile_fault H) (Save.stat_fault H) (Save.copyFile_fault H)
    (Save.unlink_fault H) p (Save.ffmpeg H).

(** The actions other than console output. *)
Definition effects (es : list Save.event) : list Save.event :=
  List.filter (fun e => match e with Save.Console _ => false | _ => true end) es.

(** The probe failures of the specification: an ffprobe error, metadata
    that cannot be read, or no video stream. *)
Definition probe_failed (p : Save.probe_outcome) : Prop :=
  match p with
  | Save.ProbeError _ => True
  | Save.ProbeData m =>
      match Save.streams m with
      | None => True
      | Some ss =>
          Forall (fun s => Save.codec_type s <> "video") ss
      end
  end.

(** Writing, measuring and copying files work. *)
Definition fs_healthy (H : Save.host) : Prop :=
  Save.writeFile_fault H = None /\ Save.stat_fault H = None /\
  Save.copyFile_fault H = None.

(** The call gets as far as the transcoder: a buffer with data, a temp
    file written and measured, and a format other than the native one. *)
Definition reaches_transcode (H : Save.host) (r : Save.request) : bool :=
  negb (Save.buffer_empty (Save.buffer r)) &&
  bool_decide (Save.writeFile_fault H = None) &&
  bool_decide (Save.stat_fault H = None) &&
  negb (String.eqb (Save.format r) "webm").

(** The command the transcode path builds from the request. *)
Definition command_of (H : Save.host) (r : Save.request) : Save.ffmpeg_command :=
  Save.commandOf (Save.temp_path H) (Save.videoBitrateOf (Save.bitrate r))
    (Save.scaleFilterOf (Save.preserveAspectRatio r)
       (fst (Save.parse_resolution (Save.resolution r)))
       (snd (Save.parse_resolution (Save.resolution r))))
    (Save.filePath r).

(** The ratio [w / h] lies strictly between [lo] and [hi]. *)
Definition in_band (lo hi : Q) (w h : Z) : Prop :=
  (lo < inject_Z w / inject_Z h)%Q /\ (inject_Z w / inject_Z h < hi)%Q.

(** The label of the fraction [w : h] in lowest terms, capped at 100. *)
Definition reduced_label (w h : Z) : string :=
  let g := Z.gcd w h in
  if (100 <? w / g) || (100 <? h / g) then "16:9"
  else dec (w / g) +:+ ":" +:+ dec (h / g).

(** At most one handler in flight, and then no recording; at most one live
    child, and none unless [isRecording] is set. *)
Definition one_session (m : Session.main) : Prop :=
  (length (Session.pending m) <= 1)%nat /\
  (length (Session.running m) <= 1)%nat /\
  (Session.pending m <> [] ->
   Session.running m = [] /\ Session.isRecording m = false) /\
  (Session.isRecording m = false -> Session.running m = []).

(** A delivery that does not start a request while another is in flight. *)
Definition serialized (d : Session.delivery) (m : Session.main) : Prop :=
  match d with
  | Session.StartRecording _ _ _ => Session.pending m = []
  | _ => True
  end.

(** Deliveries none of which starts a request while another is in
    flight. *)
Fixpoint serial (join : string -> string -> string)
    (ds : list Session.delivery) (m : Session.main) : Prop :=
  match ds with
  | [] => True
  | d :: rest => serialized d m /\ serial join rest (Session.step join d m)
  end.

(** A host for concrete runs: a POSIX temp directory, no failing [fs] call,
    a prober that fails and a transcoder that succeeds. *)
Definition plain_host : Save.host :=
  Save.mkHost 1700000000000 "/tmp" posix_join (fun _ => XNaN)
    None None None None
    (fun _ => Save.ProbeError "ffprobe exited with code 1")
    (fun _ _ => Save.Encoded [Byte.x00; Byte.x00; Byte.x01]).

Definition recording : bytes := [Byte.x1a; Byte.x45; Byte.xdf; Byte.xa3].

Definition webm_request : Save.request :=
  Save.mkRequest "/home/u/a.webm" (Some recording) "webm" (Some "1920x1080")
    (Some 5000000) true.

Definition stretch_request : Save.request :=
  Save.mkRequest "/home/u/a.mp4" (Some recording) "mp4" (Some "1920x1080")
    (Some 5000000) false.

Definition empty_request : Save.request :=
  Save.mkRequest "/home/u/a.mp4" (Some []) "mp4" (Some "1920x1080")
    (Some 5000000) true.

(** The number of seconds a clock string [H:M:S] stands for. *)
Definition clock_seconds (s : string) : option Z :=
  match split ":" s with
  | [h; m; c] =>
      match parseInt h, parseInt m, parseInt c with
      | Int a, Int b, Int d => Some (3600 * a + 60 * b + d)
      | _, _, _ => None
      end
  | _ => None
  end.

(** The size of an entry of the picker. *)
Definition size_of (r : Picker.resolution) : Z * Z :=
  (Picker.width r, Picker.height r).

(** The entries of [l] that are the first of their size, none of which is
    the size of an entry of [seen]. *)
Fixpoint first_of_each (seen l : list Picker.resolution) : list Picker.resolution :=
  match l with
  | [] => []
  | x :: r =>
      if existsb (Picker.same_size x) seen then first_of_each (seen ++ [x]) r
      else x :: first_of_each (seen ++ [x]) r
  end.

(** The blobs with data among the occurrences of a stream, in order. *)
Fixpoint payloads (os : list Capture.occurrence) : list bytes :=
  match os with
  | [] => []
  | Capture.Data (Some blob) :: r =>
      if 0 <? Z.of_nat (length blob) then blob :: payloads r else payloads r
  | _ :: r => payloads r
  end.

(** The status the window is left with. *)
Definition final_status (r : Capture.stopped) : string :=
  List.last (Capture.statuses r) "".

(** What [stop-recording] relies on: the live children are the process in
    [ffmpegProcess], they write [recordingPath] with the extension [.mp4],
    and the metadata file of [recordingPath] has been written. *)
Definition session_consistent (m : Session.main) : Prop :=
  (forall p, In p (Session.running m) ->
     Session.ffmpegProcess m = Some (Session.pid p) /\
     List.last (Session.args p) "" = Session.recordingPath m +:+ ".mp4" /\
     In (Session.recordingPath m +:+ "-metadata.json") (Session.metadata_files m)) /\
  (forall request sourceId audioDeviceId,
     In (request, Session.AwaitMetadata sourceId audioDeviceId) (Session.pending m) ->
     In (Session.recordingPath m +:+ "-metadata.json") (Session.metadata_files m)).

(** A successful answer to a stop request: it says "encrypted", gives a path
    and names the encrypted file of a metadata file that was rewritten. *)
Definition encrypted_answer (w : Lifecycle.world) (r : Lifecycle.stop_response)
  : Prop :=
  Lifecycle.stop_message r = "Recording stopped and encrypted" /\
  Lifecycle.path r <> None /\
  exists q iv,
    Lifecycle.encryptedPath r = Some (q +:+ "-encrypted.mp4") /\
    In (q +:+ "-metadata.json", q +:+ "-encrypted.mp4", iv) (Lifecycle.rewrites w).

(** What every reachable state of the main process satisfies: without a key
    nothing records, no start is past its key and no stop waits for a child;
    the stops past the close carry the two paths of one recording. *)
Definition keyed (w : Lifecycle.world) : Prop :=
  (Session.encryptionKey (Lifecycle.main w) = None ->
   Session.isRecording (Lifecycle.main w) = false /\
   (forall i s a,
      ~ In (i, Session.AwaitMetadata s a) (Session.pending (Lifecycle.main w))) /\
   (forall i c iv, ~ In (i, Lifecycle.AwaitClose c iv) (Lifecycle.stopping w))) /\
  (forall i mp ep iv,
     In (i, Lifecycle.AwaitRead mp ep iv) (Lifecycle.stopping w) ->
     exists q, mp = q +:+ "-metadata.json" /\ ep = q +:+ "-encrypted.mp4") /\
  (forall i ep,
     In (i, Lifecycle.AwaitWrite ep) (Lifecycle.stopping w) ->
     exists q iv, ep = q +:+ "-encrypted.mp4" /\
       In (q +:+ "-metadata.json", ep, iv) (Lifecycle.rewrites w)) /\
  (forall request r,
     In (request, r) (Lifecycle.stop_responses w) ->
     Lifecycle.stop_success r = true -> encrypted_answer w r).


(** Inputs for concrete runs: the entry of a 1440 by 900 display, the
    settings of a WebM and of a stretched MP4 recording, one recording of the
    main process from its start to the close of its child, and the same
    recording stopped by a request. *)
Definition laptop : Display.resolution :=
  Display.resolutionOf (Display.mkDisplay 1440 900 2).

Definition standard_definition : Picker.resolution :=
  Picker.mkResolution 854 480 "SD (854×480)" (Some "16:9") None false.

Definition webm_settings : Capture.settings :=
  Capture.mkSettings "webm" (Picker.selectedResolution Picker.initial_choices)
    5000000 true.

Definition mp4_settings : Capture.settings :=
  Capture.mkSettings "mp4" (Picker.selectedResolution Picker.initial_choices)
    5000000 false.

Definition one_recording : list Session.delivery :=
  [Session.StartRecording 1 "1" None;
   Session.DirectoriesReady 1 "/rec" "t1" [Byte.x2a];
   Session.MetadataWritten 1;
   Session.ProcessClosed 0 0].

Definition stopped_recording : list Lifecycle.delivery :=
  [Lifecycle.OfSession (Session.StartRecording 1 "1" None);
   Lifecycle.OfSession (Session.DirectoriesReady 1 "/rec" "t1" [Byte.x2a]);
   Lifecycle.OfSession (Session.MetadataWritten 1);
   Lifecycle.StopRecording 7 [Byte.x01];
   Lifecycle.OfSession (Session.ProcessClosed 0 0);
   Lifecycle.MetadataRead 7 None;
   Lifecycle.MetadataRewritten 7].
(* ===================================================================== *)
(** ** Numbers and strings *)
(* ===================================================================== *)

Section JsFacts.

Lemma read_digits_uint (d : Decimal.uint) :
  forall acc,
    read_digits (NilEmpty.string_of_uint d) acc =
    match d with
    | Decimal.Nil => acc
    | _ => Some (uint_val d (default 0 acc))
    end.
Proof.
  induction d; intros acc; simpl; try reflexivity;
    rewrite IHd; destruct d; simpl; try reflexivity; f_equal; f_equal; lia.
Qed.

Lemma of_uint_acc_val (d : Decimal.uint) :
  forall acc, Z.pos (Pos.of_uint_acc d acc) = uint_val d (Z.pos acc).
Proof.
  induction d; intros acc; simpl; try reflexivity;
    rewrite IHd; f_equal; lia.
Qed.

Lemma of_uint_val (d : Decimal.uint) : Z.of_N (Pos.of_uint d) = uint_val d 0.
Proof.
  induction d; simpl; try reflexivity; try assumption;
    rewrite of_uint_acc_val; reflexivity.
Qed.

Lemma to_uint_nonnil (n : N) : N.to_uint n <> Decimal.Nil.
Proof.
  destruct n; simpl; [discriminate | apply Unsigned.to_uint_nonnil].
Qed.

Lemma read_digits_udec (n : N) : read_digits (udec n) None = Some (Z.of_N n).
Proof.
  unfold udec. rewrite read_digits_uint.
  pose proof (to_uint_nonnil n) as Hn.
  rewrite <- (DecimalN.Unsigned.of_to n) at 2.
  unfold N.of_uint. rewrite of_uint_val.
  destruct (N.to_uint n); [contradiction | reflexivity ..].
Qed.

(** A rendered natural starts with a digit: nothing is trimmed and there is
    no sign to strip. *)
Lemma udec_head (n : N) :
  exists c r, udec n = String c r /\ is_digit c = true.
Proof.
  unfold udec. pose proof (to_uint_nonnil n) as Hn.
  destruct (N.to_uint n); [contradiction | simpl; eauto ..].
Qed.

Lemma parseInt_udec (n : N) : parseInt (udec n) = Int (Z.of_N n).
Proof.
  destruct (udec_head n) as (c & r & E & Hc).
  pose proof (read_digits_udec n) as R. rewrite E in R.
  unfold parseInt. rewrite E.
  assert (Hws : is_ws c = false).
  { unfold is_digit, digit_val in Hc. unfold is_ws.
    destruct ((48 <=? N_of_ascii c)%N && (N_of_ascii c <=? 57)%N) eqn:B;
      [| discriminate].
    apply andb_prop in B as [B1 B2].
    apply N.leb_le in B1. apply N.leb_le in B2.
    rewrite andb_false_intro2 by (apply N.leb_gt; lia).
    apply N.eqb_neq. lia. }
  simpl trim_start. rewrite Hws.
  assert (Hm : Ascii.eqb c "-" = false)
    by (apply Ascii.eqb_neq; intros ->; discriminate).
  assert (Hp : Ascii.eqb c "+" = false)
    by (apply Ascii.eqb_neq; intros ->; discriminate).
  rewrite Hm, Hp, R. reflexivity.
Qed.

(** Parsing a rendered integer gives the integer back. *)
Lemma parseInt_dec (z : Z) : parseInt (dec z) = Int z.
Proof.
  unfold dec. destruct (Z.ltb_spec z 0) as [Hneg | Hpos].
  - change ("-" +:+ udec (Z.to_N (- z))) with (String "-" (udec (Z.to_N (- z)))).
    unfold parseInt. cbn [trim_start].
    change (is_ws "-") with false. cbv iota.
    change (Ascii.eqb "-" "-") with true. cbv iota beta.
    rewrite read_digits_udec. f_equal. lia.
  - rewrite parseInt_udec. f_equal. lia.
Qed.

Lemma numeral_app (s t : string) :
  numeral (s +:+ t) = numeral s && numeral t.
Proof.
  induction s as [| c s IH]; simpl; [reflexivity |].
  rewrite IH. apply andb_assoc.
Qed.

Lemma numeral_uint (d : Decimal.uint) : numeral (NilEmpty.string_of_uint d) = true.
Proof. induction d; simpl; auto. Qed.

Lemma numeral_dec (z : Z) : numeral (dec z) = true.
Proof.
  unfold dec, udec. destruct (z <? 0); [| apply numeral_uint].
  simpl. apply numeral_uint.
Qed.

Lemma numeral_render (n : jsint) : numeral (render n) = true.
Proof. destruct n; [reflexivity | apply numeral_dec]. Qed.

Lemma occurrences_app (c : ascii) (s t : string) :
  occurrences c (s +:+ t) = (occurrences c s + occurrences c t)%nat.
Proof.
  induction s as [| a s IH]; simpl; [reflexivity |].
  destruct (Ascii.eqb a c); simpl; rewrite IH; reflexivity.
Qed.

(** A character that is not a numeral character does not occur in a
    numeral. *)
Lemma numeral_free (c : ascii) (s : string) :
  numeral_char c = false -> numeral s = true -> occurrences c s = 0%nat.
Proof.
  intros Hc. induction s as [| a s IH]; simpl; intros Hs; [reflexivity |].
  apply andb_prop in Hs as [Ha Hs].
  destruct (Ascii.eqb_spec a c) as [-> | _]; [congruence | auto].
Qed.

(** Splitting finds the first separator. *)
Lemma split_first (c : ascii) (s t : string) :
  occurrences c s = 0%nat ->
  split c (s +:+ String c t) = s :: split c t.
Proof.
  induction s as [| a s IH]; simpl; intros Hs.
  - rewrite Ascii.eqb_refl. reflexivity.
  - destruct (Ascii.eqb a c); [discriminate |].
    rewrite (IH Hs). reflexivity.
Qed.

Lemma split_none (c : ascii) (s : string) :
  occurrences c s = 0%nat -> split c s = [s].
Proof.
  induction s as [| a s IH]; simpl; intros Hs; [reflexivity |].
  destruct (Ascii.eqb a c); [discriminate |].
  rewrite (IH Hs). reflexivity.
Qed.

(** A string that occurs starts, somewhere, with its first character. *)
Lemma contains_occurs (c : ascii) (t s : string) :
  occurrences c s = 0%nat -> contains (String c t) s = false.
Proof.
  induction s as [| a s IH]; simpl; intros Hs; [reflexivity |].
  rewrite (Ascii.eqb_sym c a).
  destruct (Ascii.eqb a c); [discriminate |].
  simpl. apply IH, Hs.
Qed.

Lemma split_length (c : ascii) (s : string) :
  length (split c s) = S (occurrences c s).
Proof.
  induction s as [| a s IH]; simpl; [reflexivity |].
  destruct (Ascii.eqb a c); simpl; [congruence |].
  destruct (split c s); simpl in *; congruence.
Qed.

Lemma dec_nonempty (z : Z) : dec z <> "".
Proof.
  unfold dec. destruct (z <? 0); [discriminate |].
  destruct (udec_head (Z.to_N z)) as (c & r & E & _). rewrite E. discriminate.
Qed.

(** [evenHeight] rounds down to an even integer. *)
Lemma evenHeight_even (h : Z) : Z.even (evenHeight h) = true.
Proof.
  unfold evenHeight. pose proof (Z.quot_rem' h 2) as E.
  pose proof (Z.rem_bound_abs h 2 ltac:(lia)) as B.
  destruct (Z.eqb_spec (Z.rem h 2) 0) as [R | R];
    apply Z.even_spec.
  - exists (Z.quot h 2). lia.
  - destruct (Z.eq_dec (Z.rem h 2) 1) as [R1 | R1].
    + exists (Z.quot h 2). lia.
    + exists (Z.quot h 2 - 1). lia.
Qed.

Lemma evenHeight_le (h : Z) : evenHeight h <= h.
Proof. unfold evenHeight. destruct (Z.rem h 2 =? 0); lia. Qed.

Lemma evenHeight_close (h : Z) : h - 1 <= evenHeight h.
Proof. unfold evenHeight. destruct (Z.rem h 2 =? 0); lia. Qed.

End JsFacts.

(* ===================================================================== *)
(** ** Target resolution and scale filter *)
(* ===================================================================== *)

Section Resolution.

Import Save.

Lemma parse_resolution_two_parts (a b : string) :
  occurrences "x" a = 0%nat -> occurrences "x" b = 0%nat ->
  parse_resolution (Some (a +:+ "x" +:+ b)) =
  (parseInt a, evenHeight_js (parseInt b)).
Proof.
  intros Ha Hb. unfold parse_resolution.
  change ("x" +:+ b) with (String "x" b).
  rewrite (split_first "x" a b Ha), (split_none "x" b Hb).
  destruct (String.eqb_spec (a +:+ String "x" b) "") as [E | _];
    [| reflexivity].
  destruct a; discriminate.
Qed.

Lemma parse_resolution_rendered (w h : Z) :
  parse_resolution (Some (dec w +:+ "x" +:+ dec h)) = (Int w, Int (evenHeight h)).
Proof.
  rewrite parse_resolution_two_parts
    by (apply numeral_free; [reflexivity | apply numeral_dec]).
  rewrite !parseInt_dec. reflexivity.
Qed.

Lemma parse_resolution_default (s : string) :
  occurrences "x" s <> 1%nat -> parse_resolution (Some s) = (Int 1920, Int 1080).
Proof.
  intros Hs. unfold parse_resolution.
  destruct (String.eqb s ""); [reflexivity |].
  pose proof (split_length "x" s) as L.
  destruct (split "x" s) as [| p1 [| p2 [| p3 l]]]; simpl in L;
    try reflexivity.
  exfalso. apply Hs. congruence.
Qed.

(** The non-preserving filter names the two sizes and nothing else: in
    particular no [pad] term. *)
Lemma stretch_filter_no_pad (width height : jsint) :
  contains "pad" (scaleFilterOf false width height) = false.
Proof.
  apply contains_occurs. unfold scaleFilterOf.
  rewrite !occurrences_app.
  rewrite (numeral_free "p" (render width)), (numeral_free "p" (render height))
    by (reflexivity || apply numeral_render).
  reflexivity.
Qed.

End Resolution.

(* ===================================================================== *)
(** ** The save handler, path by path *)
(* ===================================================================== *)

Module SaveFacts.

Import Save.

(** Unfold the monadic plumbing, leaving disk operations folded. *)
Ltac exec :=
  cbv [save save_file try_finally try_catch save_try save_catch save_finally
       attempt mbind exec_bind mret exec_ret emit log set_disk get_disk
       set_tempPath get_tempPath writeFile stat_size copyFile unlink leave
       throw run initial completion final_disk actions fst snd
       disk trace tempPath].

Lemma mapM_log (lines : list console) :
  forall st,
    mapM log lines st =
    (inr (map (fun _ => tt) lines),
     mkState (disk st) (trace st ++ map Console lines) (tempPath st)).
Proof.
  induction lines as [| l lines IH]; intros [d t p]; simpl.
  - exec. rewrite app_nil_r. reflexivity.
  - unfold mbind at 1, exec_bind at 1. unfold log at 1, emit at 1.
    unfold mbind at 1, exec_bind at 1. rewrite IH. simpl.
    rewrite <- app_assoc. reflexivity.
Qed.

(** The probe: one call, some lines, always an answer. *)
Lemma getVideoInfo_run (H : host) (path : string) (st : state) :
  getVideoInfo H path st =
  (inr (fst (videoInfoOf H (ffprobe H (disk st !! path)))),
   mkState (disk st)
     (trace st ++ RunFfprobe path
        :: map Console (snd (videoInfoOf H (ffprobe H (disk st !! path)))))
     (tempPath st)).
Proof.
  destruct st as [d t p]. unfold getVideoInfo.
  cbv [mbind exec_bind emit get_disk disk trace tempPath].
  destruct (videoInfoOf H (ffprobe H (d !! path))) as [info lines].
  cbv [mbind exec_bind]. rewrite mapM_log. simpl.
  rewrite <- app_assoc. reflexivity.
Qed.

(** The [finally] block never throws. *)
Lemma save_finally_run (H : host) (st : state) :
  save_finally H st =
  (inr tt, match tempPath st with
           | Some p => cleaned H p st
           | None => st
           end).
Proof.
  destruct st as [d t [p |]]; [| reflexivity].
  unfold cleaned. exec. destruct (unlink_fault H) as [e |].
  - rewrite <- app_assoc. reflexivity.
  - destruct (d !! p); rewrite <- app_assoc; reflexivity.
Qed.

Lemma save_run (H : host) (d : gmap string bytes) (r : request) :
  save H d r =
  (fst (attempt H r d),
   match tempPath (snd (attempt H r d)) with
   | Some p => cleaned H p (snd (attempt H r d))
   | None => snd (attempt H r d)
   end).
Proof.
  unfold save, save_file, try_finally. fold (attempt H r d).
  destruct (attempt H r d) as [c st]. rewrite save_finally_run. reflexivity.
Qed.

Section Paths.

Variables (H : host) (d : gmap string bytes) (r : request).
Variables (x : Byte.byte) (b : bytes).
Hypothesis Hbuffer : buffer r = Some (x :: b).

Let tp := temp_path H.
Let data := x :: b.

Lemma attempt_empty :
  forall r', buffer_empty (buffer r') = true ->
  attempt H r' d =
  (inr (Failure "No recording data received. The recording may be empty."),
   mkState d [Console ErrEmptyBuffer] None).
Proof. intros r' E. exec. rewrite E. reflexivity. Qed.

Lemma attempt_write_fault (f : io_fault) :
  writeFile_fault H = Some f ->
  attempt H r d =
  (inr (Failure (fault_message f)),
   mkState (match fault_residue f with
            | Some rest => <[tp := rest]> d
            | None => d
            end)
     [Console (LogTempPath tp); FsWriteFile tp data;
      Console (ErrSaveFile (fault_message f))]
     (Some tp)).
Proof.
  intros W. exec. rewrite Hbuffer, W. simpl.
  destruct (fault_residue f); reflexivity.
Qed.

Lemma attempt_stat_fault (e : string) :
  writeFile_fault H = None -> stat_fault H = Some e ->
  attempt H r d =
  (inr (Failure e),
   mkState (<[tp := data]> d)
     [Console (LogTempPath tp); FsWriteFile tp data; FsStat tp;
      Console (ErrSaveFile e)]
     (Some tp)).
Proof.
  intros W S. exec. rewrite Hbuffer, W, S. reflexivity.
Qed.

Let measured : list event :=
  [Console (LogTempPath tp); FsWriteFile tp data; FsStat tp;
   Console (LogTempSize (Z.of_nat (length data)))].

Lemma attempt_copy_fault (f : io_fault) :
  writeFile_fault H = None -> stat_fault H = None ->
  String.eqb (format r) "webm" = true ->
  copyFile_fault H = Some f ->
  attempt H r d =
  (inr (Failure (fault_message f)),
   mkState (match fault_residue f with
            | Some rest => <[filePath r := rest]> (<[tp := data]> d)
            | None => <[tp := data]> d
            end)
     (measured ++ [FsCopyFile tp (filePath r);
                   Console (ErrSaveFile (fault_message f))])
     (Some tp)).
Proof.
  intros W S F C. exec. rewrite Hbuffer, W, S. simpl.
  rewrite lookup_insert_eq. simpl. rewrite F, C.
  destruct (fault_residue f); reflexivity.
Qed.

Lemma attempt_copy :
  writeFile_fault H = None -> stat_fault H = None ->
  String.eqb (format r) "webm" = true ->
  copyFile_fault H = None ->
  attempt H r d =
  (inr Success,
   mkState (<[filePath r := data]> (<[tp := data]> d))
     (measured ++ [FsCopyFile tp (filePath r);
                   Console (LogWebmSaved (filePath r))])
     (Some tp)).
Proof.
  intros W S F C. exec. rewrite Hbuffer, W, S. simpl.
  rewrite lookup_insert_eq. simpl. rewrite F, C.
  rewrite lookup_insert_eq. reflexivity.
Qed.

(** The command of the transcode path and the actions up to its run. *)
Let cmd : ffmpeg_command :=
  commandOf tp (videoBitrateOf (bitrate r))
    (scaleFilterOf (preserveAspectRatio r)
       (fst (parse_resolution (resolution r)))
       (snd (parse_resolution (resolution r))))
    (filePath r).

Let probed : video_info * list console := videoInfoOf H (ffprobe H (Some data)).

Let prepared : list event :=
  measured ++ RunFfprobe tp :: map Console (snd probed) ++
  [Console (inputDims (fst probed));
   Console (LogTargetDims (fst (parse_resolution (resolution r)))
              (snd (parse_resolution (resolution r)))
              (preserveAspectRatio r));
   Console (LogScaling (preserveAspectRatio r) (videoFilters cmd));
   Console (LogConverting (format r)
              (fst (parse_resolution (resolution r)))
              (snd (parse_resolution (resolution r)))
              (videoBitrate cmd));
   RunFfmpeg cmd].

Lemma attempt_transcode :
  writeFile_fault H = None -> stat_fault H = None ->
  String.eqb (format r) "webm" = false ->
  attempt H r d =
  match ffmpeg H cmd (Some data) with
  | Encoded out =>
      (inr Success,
       mkState (<[filePath r := out]> (<[tp := data]> d))
         (prepared ++ [Console LogConversionComplete;
                       Console (LogFileSaved (filePath r))])
         (Some tp))
  | Failed err residue =>
      (inr (Failure err),
       mkState (match residue with
                | Some rest => <[filePath r := rest]> (<[tp := data]> d)
                | None => <[tp := data]> d
                end)
         (prepared ++ [Console (ErrFfmpeg err); Console (ErrSaveFile err)])
         (Some tp))
  end.
Proof.
  intros W S F. subst prepared probed cmd measured. exec.
  rewrite Hbuffer, W, S. simpl.
  rewrite lookup_insert_eq. simpl. rewrite F.
  destruct (parse_resolution (resolution r)) as [width height]. simpl.
  rewrite getVideoInfo_run. simpl. rewrite lookup_insert_eq.
  fold tp. fold data.
  destruct (ffmpeg H _ (Some data)) as [out | err residue];
    [| destruct residue]; simpl;
    rewrite <- ?app_assoc; simpl; rewrite <- ?app_assoc; reflexivity.
Qed.

End Paths.

Lemma transcoder_runs_app (l1 l2 : list event) :
  transcoder_runs (l1 ++ l2) = (transcoder_runs l1 ++ transcoder_runs l2)%list.
Proof. apply omap_app. Qed.

Lemma probe_runs_app (l1 l2 : list event) :
  probe_runs (l1 ++ l2) = (probe_runs l1 ++ probe_runs l2)%list.
Proof. apply omap_app. Qed.

Lemma effects_app (l1 l2 : list event) :
  effects (l1 ++ l2) = (effects l1 ++ effects l2)%list.
Proof. apply List.filter_app. Qed.

Lemma transcoder_runs_console (lines : list console) :
  transcoder_runs (map Console lines) = [].
Proof. induction lines; simpl; auto. Qed.

Lemma probe_runs_console (lines : list console) :
  probe_runs (map Console lines) = [].
Proof. induction lines; simpl; auto. Qed.

Lemma effects_console (lines : list console) : effects (map Console lines) = [].
Proof. induction lines; simpl; auto. Qed.

(** The [finally] block runs no tool and keeps files other than the temp
    file. *)
Lemma cleaned_trace (H : host) (p : string) (st : state) :
  exists line,
    trace (cleaned H p st) = (trace st ++ [FsUnlink p; Console line])%list /\
    (line = LogTempDeleted \/ exists e, line = ErrDeletingTemp e) /\
    (forall e, unlink_fault H = Some e -> line = ErrDeletingTemp e).
Proof.
  unfold cleaned. destruct (unlink_fault H) as [e |].
  - exists (ErrDeletingTemp e). simpl. split; [reflexivity |].
    split; [eauto | intros e' [= <-]; reflexivity].
  - destruct (disk st !! p); eexists; (split; [reflexivity |]);
      (split; [eauto | discriminate]).
Qed.

Lemma cleaned_temp (H : host) (p : string) (st : state) :
  unlink_fault H = None -> disk (cleaned H p st) !! p = None.
Proof.
  intros U. unfold cleaned. rewrite U.
  destruct (disk st !! p) eqn:E; simpl; [apply lookup_delete_eq | exact E].
Qed.

Lemma cleaned_other (H : host) (p q : string) (st : state) :
  q <> p -> disk (cleaned H p st) !! q = disk st !! q.
Proof.
  intros N. unfold cleaned.
  destruct (unlink_fault H); [reflexivity |].
  destruct (disk st !! p); simpl; [| reflexivity].
  apply lookup_delete_ne. congruence.
Qed.

(** Nothing before the [finally] block looks at the outcome of
    [fs.unlink]. *)
Lemma attempt_with_unlink_fault (f : option string) (H : host)
    (d : gmap string bytes) (r : request) :
  attempt (with_unlink_fault f H) r d = attempt H r d.
Proof. reflexivity. Qed.

(** A buffer with data sets [tempPath]. *)
Lemma attempt_tempPath (H : host) (d : gmap string bytes) (r : request) :
  tempPath (snd (attempt H r d)) =
  if buffer_empty (buffer r) then None else Some (temp_path H).
Proof.
  destruct (buffer r) as [[| x b] |] eqn:B; simpl;
    try (rewrite attempt_empty by (rewrite B; reflexivity); reflexivity).
  destruct (writeFile_fault H) as [f |] eqn:W.
  { rewrite (attempt_write_fault H d r x b B f W). reflexivity. }
  destruct (stat_fault H) as [e |] eqn:S.
  { rewrite (attempt_stat_fault H d r x b B e W S). reflexivity. }
  destruct (String.eqb (format r) "webm") eqn:F.
  - destruct (copyFile_fault H) as [f |] eqn:C.
    + rewrite (attempt_copy_fault H d r x b B f W S F C). reflexivity.
    + rewrite (attempt_copy H d r x b B W S F C). reflexivity.
  - rewrite (attempt_transcode H d r x b B W S F).
    destruct (ffmpeg H _ _); reflexivity.
Qed.

(** The handler always resolves. *)
Lemma attempt_resolves (H : host) (d : gmap string bytes) (r : request) :
  exists res, fst (attempt H r d) = inr res.
Proof.
  destruct (buffer r) as [[| x b] |] eqn:B;
    try (rewrite attempt_empty by (rewrite B; reflexivity); simpl; eauto).
  destruct (writeFile_fault H) as [f |] eqn:W.
  { rewrite (attempt_write_fault H d r x b B f W). simpl; eauto. }
  destruct (stat_fault H) as [e |] eqn:S.
  { rewrite (attempt_stat_fault H d r x b B e W S). simpl; eauto. }
  destruct (String.eqb (format r) "webm") eqn:F.
  - destruct (copyFile_fault H) as [f |] eqn:C.
    + rewrite (attempt_copy_fault H d r x b B f W S F C). simpl; eauto.
    + rewrite (attempt_copy H d r x b B W S F C). simpl; eauto.
  - rewrite (attempt_transcode H d r x b B W S F).
    destruct (ffmpeg H _ _); simpl; eauto.
Qed.

End SaveFacts.

(* ===================================================================== *)
(** ** Properties of [save] *)
(* ===================================================================== *)

Section SaveProperties.

Import Save SaveFacts.

Variables (H : host) (d : gmap string bytes).

(** The transcoder runs at most once, with the command of the request, and
    exactly on the transcode path. *)
Lemma transcoder_runs_save (r : request) :
  transcoder_runs (actions (save H d r)) =
  if reaches_transcode H r then [command_of H r] else [].
Proof.
  unfold actions. rewrite save_run. cbn [snd].
  assert (C : forall p st, transcoder_runs (trace (cleaned H p st)) =
                           transcoder_runs (trace st)).
  { intros p st. destruct (cleaned_trace H p st) as (line & -> & _).
    rewrite transcoder_runs_app. simpl. apply app_nil_r. }
  assert (T : transcoder_runs
                (trace match tempPath (snd (attempt H r d)) with
                       | Some p => cleaned H p (snd (attempt H r d))
                       | None => snd (attempt H r d)
                       end) = transcoder_runs (trace (snd (attempt H r d)))).
  { destruct (tempPath (snd (attempt H r d))); [apply C | reflexivity]. }
  rewrite T. clear T C. unfold reaches_transcode.
  destruct (buffer r) as [[| x b] |] eqn:B;
    try (rewrite attempt_empty by (rewrite B; reflexivity); reflexivity).
  simpl buffer_empty. cbn [negb andb].
  destruct (writeFile_fault H) as [f |] eqn:W.
  { rewrite (attempt_write_fault H d r x b B f W). reflexivity. }
  destruct (stat_fault H) as [e |] eqn:S.
  { rewrite (attempt_stat_fault H d r x b B e W S). reflexivity. }
  rewrite !bool_decide_eq_true_2 by reflexivity. cbn [andb].
  destruct (String.eqb (format r) "webm") eqn:F.
  - destruct (copyFile_fault H) as [f |] eqn:C.
    + rewrite (attempt_copy_fault H d r x b B f W S F C). reflexivity.
    + rewrite (attempt_copy H d r x b B W S F C). reflexivity.
  - rewrite (attempt_transcode H d r x b B W S F).
    destruct (ffmpeg H _ _); cbn [snd trace];
      rewrite !transcoder_runs_app; simpl;
      rewrite !transcoder_runs_app, transcoder_runs_console; reflexivity.
Qed.

End SaveProperties.

Section SaveClaims.

Import Save SaveFacts.

Lemma probe_runs_save_webm (H : host) (d : gmap string bytes) (r : request) :
  String.eqb (format r) "webm" = true ->
  probe_runs (actions (save H d r)) = [].
Proof.
  intros F. unfold actions. rewrite save_run. cbn [snd].
  assert (T : probe_runs
                (trace match tempPath (snd (attempt H r d)) with
                       | Some p => cleaned H p (snd (attempt H r d))
                       | None => snd (attempt H r d)
                       end) = probe_runs (trace (snd (attempt H r d)))).
  { destruct (tempPath (snd (attempt H r d))) as [p |]; [| reflexivity].
    destruct (cleaned_trace H p (snd (attempt H r d))) as (line & -> & _).
    rewrite probe_runs_app. simpl. apply app_nil_r. }
  rewrite T. clear T.
  destruct (buffer r) as [[| x b] |] eqn:B;
    try (rewrite attempt_empty by (rewrite B; reflexivity); reflexivity).
  destruct (writeFile_fault H) as [f |] eqn:W.
  { rewrite (attempt_write_fault H d r x b B f W). reflexivity. }
  destruct (stat_fault H) as [e |] eqn:S.
  { rewrite (attempt_stat_fault H d r x b B e W S). reflexivity. }
  destruct (copyFile_fault H) as [f |] eqn:C.
  - rewrite (attempt_copy_fault H d r x b B f W S F C). reflexivity.
  - rewrite (attempt_copy H d r x b B W S F C). reflexivity.
Qed.

(** C1. With a buffer that holds data and the native format ["webm"], save
    never runs the transcoder (nor the prober).  When writing, measuring and
    copying files work, it resolves with [{success: true}] and the
    destination holds exactly the bytes of the buffer (the destination being
    a path other than the temp file, which save deletes). *)
Theorem save_webm_is_a_copy (H : host) (d : gmap string bytes) (r : request)
    (b : bytes) :
  buffer r = Some b -> b <> [] -> format r = "webm" ->
  transcoder_runs (actions (save H d r)) = [] /\
  probe_runs (actions (save H d r)) = [] /\
  (fs_healthy H -> filePath r <> temp_path H ->
   completion (save H d r) = inr Success /\
   final_disk (save H d r) !! filePath r = Some b).
Proof.
  intros B Hb F.
  assert (F' : String.eqb (format r) "webm" = true) by (rewrite F; reflexivity).
  split; [| split].
  - rewrite transcoder_runs_save. unfold reaches_transcode.
    rewrite F'. rewrite !andb_false_r. reflexivity.
  - apply probe_runs_save_webm, F'.
  - intros (W & S & C) N. destruct b as [| x b]; [congruence |].
    unfold completion, final_disk. rewrite save_run.
    rewrite (attempt_copy H d r x b B W S F' C). cbn [fst snd tempPath].
    split; [reflexivity |].
    rewrite cleaned_other by exact N. cbn [disk].
    apply lookup_insert_eq.
Qed.

(** C3. With an absent or empty buffer, save resolves with
    [{success: false}] and the "no recording data" error, leaves the disk as
    it was, assigns no temp path and performs no action besides printing the
    error. *)
Theorem save_rejects_empty_buffer (H : host) (d : gmap string bytes)
    (r : request) :
  buffer r = None \/ buffer r = Some [] ->
  completion (save H d r) =
    inr (Failure "No recording data received. The recording may be empty.") /\
  final_disk (save H d r) = d /\
  actions (save H d r) = [Console ErrEmptyBuffer] /\
  tempPath (snd (save H d r)) = None.
Proof.
  intros E.
  assert (E' : buffer_empty (buffer r) = true)
    by (destruct E as [-> | ->]; reflexivity).
  unfold completion, final_disk, actions.
  rewrite save_run, (attempt_empty H d r E'). repeat split.
Qed.

(** C2. Whatever the outcome, save resolves (it never throws), and its
    result does not depend on whether deleting the temp file works.  Once
    the temp path is assigned, the last thing save does is to unlink it and
    print one line; when the unlink works the temp file does not exist
    afterwards, and when it fails the failure is that printed line. *)
Theorem save_cleans_up (H : host) (d : gmap string bytes) (r : request) :
  (exists res, completion (save H d r) = inr res) /\
  (forall f, completion (save (with_unlink_fault f H) d r) =
             completion (save H d r)) /\
  (buffer_empty (buffer r) = false ->
   (exists before line,
      actions (save H d r) =
        (before ++ [FsUnlink (temp_path H); Console line])%list /\
      (line = LogTempDeleted \/ exists e, line = ErrDeletingTemp e) /\
      (forall e, unlink_fault H = Some e -> line = ErrDeletingTemp e)) /\
   (unlink_fault H = None -> final_disk (save H d r) !! temp_path H = None)).
Proof.
  split; [| split].
  - unfold completion. rewrite save_run. apply attempt_resolves.
  - intros f. unfold completion. rewrite !save_run. reflexivity.
  - intros E. unfold actions, final_disk. rewrite save_run. cbn [snd].
    rewrite attempt_tempPath, E. split.
    + destruct (cleaned_trace H (temp_path H) (snd (attempt H r d)))
        as (line & T & L). eauto.
    + apply cleaned_temp.
Qed.

(** C4. Every command save hands to the transcoder carries the filter built
    from the normalized target size: the fit-and-pad filter when the aspect
    ratio is preserved, the plain [scale=W:H] otherwise, which has no [pad]
    term. *)
Theorem save_scale_filter (H : host) (d : gmap string bytes) (r : request)
    (cmd : ffmpeg_command) :
  In cmd (transcoder_runs (actions (save H d r))) ->
  let W := render (fst (parse_resolution (resolution r))) in
  let Hh := render (snd (parse_resolution (resolution r))) in
  (preserveAspectRatio r = true ->
   videoFilters cmd =
     "scale=" +:+ W +:+ ":" +:+ Hh
     +:+ ":force_original_aspect_ratio=decrease,pad=" +:+ W +:+ ":" +:+ Hh
     +:+ ":(ow-iw)/2:(oh-ih)/2") /\
  (preserveAspectRatio r = false ->
   videoFilters cmd = "scale=" +:+ W +:+ ":" +:+ Hh /\
   contains "pad" (videoFilters cmd) = false).
Proof.
  rewrite transcoder_runs_save.
  destruct (reaches_transcode H r); [| intros []].
  intros [<- | []]. cbn zeta. unfold command_of. cbn [videoFilters commandOf].
  split; intros P; rewrite P.
  - reflexivity.
  - split; [reflexivity | apply stretch_filter_no_pad].
Qed.

End SaveClaims.

Section ProbeClaims.

Import Save SaveFacts.

Lemma find_no_video (ss : list stream) :
  Forall (fun s => codec_type s <> "video") ss ->
  List.find (fun s => String.eqb (codec_type s) "video") ss = None.
Proof.
  induction 1 as [| s ss Hs _ IH]; simpl; [reflexivity |].
  destruct (String.eqb_spec (codec_type s) "video"); [contradiction | exact IH].
Qed.

(** Each probe failure makes [getVideoInfo] resolve with the fallback. *)
Lemma videoInfoOf_fallback (H : host) (p : probe_outcome) :
  probe_failed p -> fst (videoInfoOf H p) = fallback_info.
Proof.
  destruct p as [err | [[ss |]]]; simpl; intros F; try reflexivity.
  rewrite (find_no_video ss F). reflexivity.
Qed.

Lemma cleaned_effects (H : host) (p : string) (st : state) :
  effects (trace (cleaned H p st)) = (effects (trace st) ++ [FsUnlink p])%list.
Proof.
  destruct (cleaned_trace H p st) as (line & -> & _).
  rewrite effects_app. reflexivity.
Qed.

Lemma cleaned_disk (H : host) (p : string) (st st' : state) :
  disk st = disk st' -> disk (cleaned H p st) = disk (cleaned H p st').
Proof.
  intros E. unfold cleaned. destruct (unlink_fault H); simpl; [exact E |].
  rewrite E. destruct (disk st' !! p); simpl; congruence.
Qed.

(** Up to console output, the handler does not depend on the prober. *)
Lemma attempt_with_ffprobe (H : host) (probe' : option bytes -> probe_outcome)
    (d : gmap string bytes) (r : request) :
  let a := attempt H r d in
  let a' := attempt (with_ffprobe probe' H) r d in
  fst a' = fst a /\ disk (snd a') = disk (snd a) /\
  tempPath (snd a') = tempPath (snd a) /\
  effects (trace (snd a')) = effects (trace (snd a)).
Proof.
  set (H' := with_ffprobe probe' H). cbn zeta.
  destruct (buffer r) as [[| x b] |] eqn:B;
    try (rewrite !attempt_empty by (rewrite B; reflexivity); repeat split).
  destruct (writeFile_fault H) as [f |] eqn:W.
  { rewrite (attempt_write_fault H d r x b B f W),
      (attempt_write_fault H' d r x b B f W). repeat split. }
  destruct (stat_fault H) as [e |] eqn:S.
  { rewrite (attempt_stat_fault H d r x b B e W S),
      (attempt_stat_fault H' d r x b B e W S). repeat split. }
  destruct (String.eqb (format r) "webm") eqn:F.
  - destruct (copyFile_fault H) as [f |] eqn:C.
    + rewrite (attempt_copy_fault H d r x b B f W S F C),
        (attempt_copy_fault H' d r x b B f W S F C). repeat split.
    + rewrite (attempt_copy H d r x b B W S F C),
        (attempt_copy H' d r x b B W S F C). repeat split.
  - rewrite (attempt_transcode H d r x b B W S F),
      (attempt_transcode H' d r x b B W S F).
    change (ffmpeg H') with (ffmpeg H). change (temp_path H') with (temp_path H).
    destruct (ffmpeg H _ _) as [out | err residue]; cbn [fst snd disk tempPath trace];
      (repeat split);
      rewrite !effects_app; simpl; rewrite !effects_app, !effects_console;
      reflexivity.
Qed.

(** C9. On the transcode path a failed probe (an ffprobe error, metadata
    without readable streams, or no video stream) is not fatal: the probe
    resolves with the default 1920x1080, and save goes on to run the
    transcoder once, its result being the transcoder's. *)
Theorem probe_failure_is_not_fatal (H : host) (d : gmap string bytes)
    (r : request) (b : bytes) :
  buffer r = Some b -> b <> [] ->
  writeFile_fault H = None -> stat_fault H = None ->
  format r <> "webm" ->
  probe_failed (ffprobe H (Some b)) ->
  (forall st, disk st !! temp_path H = Some b ->
     exists st', getVideoInfo H (temp_path H) st =
                 (inr (mkInfo 1920 1080 None None None), st')) /\
  probe_runs (actions (save H d r)) = [temp_path H] /\
  transcoder_runs (actions (save H d r)) = [command_of H r] /\
  completion (save H d r) =
    inr match ffmpeg H (command_of H r) (Some b) with
        | Encoded _ => Success
        | Failed err _ => Failure err
        end.
Proof.
  intros B Hb W S F P.
  assert (F' : String.eqb (format r) "webm" = false)
    by (apply String.eqb_neq, F).
  destruct b as [| x b]; [congruence |].
  split; [| split; [| split]].
  - intros st E. rewrite getVideoInfo_run, E.
    rewrite (videoInfoOf_fallback H _ P). eauto.
  - unfold actions. rewrite save_run. cbn [snd].
    rewrite attempt_tempPath, B. cbn [buffer_empty length Nat.eqb].
    destruct (cleaned_trace H (temp_path H) (snd (attempt H r d)))
      as (line & -> & _).
    rewrite (attempt_transcode H d r x b B W S F').
    destruct (ffmpeg H _ _); cbn [snd trace];
      rewrite !probe_runs_app; simpl;
      rewrite !probe_runs_app, probe_runs_console; reflexivity.
  - rewrite transcoder_runs_save. unfold reaches_transcode.
    rewrite B, W, S, F'. reflexivity.
  - unfold completion. rewrite save_run. cbn [fst].
    rewrite (attempt_transcode H d r x b B W S F').
    unfold command_of. destruct (ffmpeg H _ _); reflexivity.
Qed.

(** C10. Two runs of save that differ only in what the prober answers hand
    the same commands to the transcoder; they perform the same actions up
    to console output, resolve with the same result and leave the same
    disk. *)
Theorem transcode_independent_of_probe (H : host)
    (probe' : option bytes -> probe_outcome) (d : gmap string bytes)
    (r : request) :
  transcoder_runs (actions (save (with_ffprobe probe' H) d r)) =
    transcoder_runs (actions (save H d r)) /\
  effects (actions (save (with_ffprobe probe' H) d r)) =
    effects (actions (save H d r)) /\
  completion (save (with_ffprobe probe' H) d r) = completion (save H d r) /\
  final_disk (save (with_ffprobe probe' H) d r) = final_disk (save H d r).
Proof.
  split; [rewrite !transcoder_runs_save; reflexivity |].
  destruct (attempt_with_ffprobe H probe' d r) as (Ec & Ed & Et & Ee).
  unfold actions, completion, final_disk. rewrite !save_run. cbn [fst snd].
  rewrite Et. destruct (tempPath (snd (attempt H r d))) as [p |].
  - split; [| split]; [| exact Ec |].
    + change (cleaned (with_ffprobe probe' H)) with (cleaned H).
      rewrite !cleaned_effects. congruence.
    + apply (cleaned_disk H p _ _ Ed).
  - auto.
Qed.

End ProbeClaims.

(* ===================================================================== *)
(** ** Display resolutions *)
(* ===================================================================== *)

Section DisplayFacts.

Import Display.

Lemma Qltb_lt (p q : Q) : Qltb p q = true <-> (p < q)%Q.
Proof. unfold Qltb, Qlt. apply Z.ltb_lt. Qed.

Lemma Qltb_eq_compat (p p' q q' : Q) :
  (p == p')%Q -> (q == q')%Q -> Qltb p q = Qltb p' q'.
Proof.
  intros Ep Eq. apply eq_true_iff_eq. rewrite !Qltb_lt, Ep, Eq. reflexivity.
Qed.

(** The loop computes the greatest common divisor. *)
Lemma gcd_loop_gcd (a b : Z) : 0 <= a -> 0 <= b -> gcd_loop a b = Z.gcd a b.
Proof.
  funelim (gcd_loop a b); intros Ha Hb.
  - subst b. rewrite Z.gcd_0_r. symmetry. apply Z.abs_eq, Ha.
  - rewrite Z.rem_mod_nonneg in * by lia.
    rewrite H by (try apply Z.mod_pos_bound; lia).
    rewrite Z.gcd_mod_r. apply Z.gcd_comm.
Qed.

Lemma gcd_gcd (a b : Z) : gcd a b = Z.gcd a b.
Proof.
  unfold gcd.
  destruct (Z.eqb_spec (Z.abs a) 0) as [Ea | Na].
  { assert (a = 0) as -> by lia. symmetry. apply Z.gcd_0_l. }
  destruct (Z.eqb_spec (Z.abs b) 0) as [Eb | Nb].
  { assert (b = 0) as -> by lia. symmetry. apply Z.gcd_0_r. }
  rewrite gcd_loop_gcd by apply Z.abs_nonneg.
  rewrite Z.gcd_abs_l, Z.gcd_abs_r. reflexivity.
Qed.

(** Dividing by a divisor is exact. *)
Lemma Qdiv_exact (n g : Z) :
  g <> 0 -> (g | n) -> (inject_Z n / inject_Z g == inject_Z (n / g))%Q.
Proof.
  intros Hg [k ->]. rewrite Z.div_mul by exact Hg.
  rewrite inject_Z_mult. apply Qdiv_mult_l.
  intros E. apply Hg. apply (inject_Z_injective g 0), E.
Qed.

Lemma Math_round_Z (k : Z) : Math_round (inject_Z k) = k.
Proof.
  unfold Math_round, Qfloor, inject_Z, Qplus. simpl.
  rewrite Z.mul_1_r. symmetry. apply (Z.div_unique_pos _ _ _ 1); lia.
Qed.

Lemma Math_round_comp (p q : Q) : (p == q)%Q -> Math_round p = Math_round q.
Proof. intros E. unfold Math_round. apply Qfloor_comp. rewrite E. reflexivity. Qed.

(** On a display, [calculateAspectRatio] is the reduced fraction, capped. *)
Lemma calculateAspectRatio_reduced (w h : Z) :
  0 < w -> 0 < h -> calculateAspectRatio w h = reduced_label w h.
Proof.
  intros Hw Hh. unfold calculateAspectRatio, reduced_label.
  rewrite gcd_gcd. set (g := Z.gcd w h).
  assert (Hg : 0 < g).
  { pose proof (Z.gcd_nonneg w h). fold g in H.
    destruct (Z.eq_dec g 0) as [E | N]; [| lia].
    apply Z.gcd_eq_0_l in E. lia. }
  destruct (Z.eqb_spec g 0) as [E | _]; [lia |].
  pose proof (Qdiv_exact w g ltac:(lia) (Z.gcd_divide_l w h)) as Ew.
  pose proof (Qdiv_exact h g ltac:(lia) (Z.gcd_divide_r w h)) as Eh.
  rewrite (Qltb_eq_compat 100 100 _ _ (Qeq_refl _) Ew).
  rewrite (Qltb_eq_compat 100 100 _ _ (Qeq_refl _) Eh).
  rewrite (Math_round_comp _ _ Ew), (Math_round_comp _ _ Eh), !Math_round_Z.
  assert (L : forall k, Qltb 100 (inject_Z k) = (100 <? k)).
  { intros k. unfold Qltb, inject_Z. simpl. f_equal; lia. }
  rewrite !L. reflexivity.
Qed.

(** The handler's range test is the membership in the band. *)
Lemma band_test (lo hi : Q) (w h : Z) :
  0 < h ->
  xgt (xdiv (of_Z w) (of_Z h)) lo && xlt (xdiv (of_Z w) (of_Z h)) hi = true <->
  in_band lo hi w h.
Proof.
  intros Hh. unfold xdiv, of_Z, Qzerob, in_band. simpl Qnum.
  destruct (Z.eqb_spec h 0) as [E | _]; [lia |].
  simpl. rewrite andb_true_iff, !Qltb_lt. reflexivity.
Qed.

Lemma band_hit (lo hi : Q) (w h : Z) :
  0 < h -> in_band lo hi w h ->
  xgt (xdiv (of_Z w) (of_Z h)) lo && xlt (xdiv (of_Z w) (of_Z h)) hi = true.
Proof. intros Hh B. apply band_test; assumption. Qed.

Lemma band_miss (lo hi : Q) (w h : Z) :
  0 < h -> ~ in_band lo hi w h ->
  xgt (xdiv (of_Z w) (of_Z h)) lo && xlt (xdiv (of_Z w) (of_Z h)) hi = false.
Proof.
  intros Hh B. apply not_true_is_false. intros T. apply B.
  apply band_test; assumption.
Qed.

(** Bands that do not overlap exclude each other. *)
Lemma band_disjoint (lo hi lo' hi' : Q) (w h : Z) :
  in_band lo hi w h -> (hi <= lo')%Q \/ (hi' <= lo)%Q ->
  ~ in_band lo' hi' w h.
Proof.
  unfold in_band. generalize (inject_Z w / inject_Z h)%Q. intros x.
  intros [B1 B2] [D | D] [B1' B2']; lra.
Qed.

End DisplayFacts.

Section DisplayClaims.

Import Display.

Local Ltac apart :=
  first [left; unfold Qle; simpl; lia | right; unfold Qle; simpl; lia].

(** C7. For a display of positive size, a ratio inside the band around
    16:9, 4:3, 3:2 or 21:9 is labelled with that ratio; any other ratio is
    labelled with its fraction in lowest terms, or ["16:9"] when a side of
    the reduced fraction exceeds 100.  1920x1080 is ["16:9"] and 1280x1024
    is ["5:4"]. *)
Theorem aspect_ratio_label (w h : Z) :
  0 < w -> 0 < h ->
  (in_band (17 # 10) (18 # 10) w h -> aspectRatioOf w h = "16:9") /\
  (in_band (13 # 10) (14 # 10) w h -> aspectRatioOf w h = "4:3") /\
  (in_band (15 # 10) (16 # 10) w h -> aspectRatioOf w h = "3:2") /\
  (in_band (23 # 10) (24 # 10) w h -> aspectRatioOf w h = "21:9") /\
  (~ in_band (17 # 10) (18 # 10) w h -> ~ in_band (13 # 10) (14 # 10) w h ->
   ~ in_band (15 # 10) (16 # 10) w h -> ~ in_band (23 # 10) (24 # 10) w h ->
   aspectRatioOf w h = reduced_label w h) /\
  aspectRatioOf 1920 1080 = "16:9" /\
  aspectRatioOf 1280 1024 = "5:4".
Proof.
  intros Hw Hh. unfold aspectRatioOf. cbn zeta.
  split; [| split; [| split; [| split; [| split; [| split]]]]].
  - intros B. rewrite (band_hit _ _ w h Hh B). reflexivity.
  - intros B.
    rewrite (band_miss (17 # 10) (18 # 10) w h Hh)
      by (apply (band_disjoint _ _ _ _ w h B); apart).
    rewrite (band_hit _ _ w h Hh B). reflexivity.
  - intros B.
    rewrite (band_miss (17 # 10) (18 # 10) w h Hh)
      by (apply (band_disjoint _ _ _ _ w h B); apart).
    rewrite (band_miss (13 # 10) (14 # 10) w h Hh)
      by (apply (band_disjoint _ _ _ _ w h B); apart).
    rewrite (band_hit _ _ w h Hh B). reflexivity.
  - intros B.
    rewrite (band_miss (17 # 10) (18 # 10) w h Hh)
      by (apply (band_disjoint _ _ _ _ w h B); apart).
    rewrite (band_miss (13 # 10) (14 # 10) w h Hh)
      by (apply (band_disjoint _ _ _ _ w h B); apart).
    rewrite (band_miss (15 # 10) (16 # 10) w h Hh)
      by (apply (band_disjoint _ _ _ _ w h B); apart).
    rewrite (band_hit _ _ w h Hh B). reflexivity.
  - intros N1 N2 N3 N4.
    rewrite !band_miss by assumption.
    apply calculateAspectRatio_reduced; assumption.
  - reflexivity.
  - vm_compute. reflexivity.
Qed.

Lemma resolutionOf_unscaled (d : display) :
  width (resolutionOf d) = bounds_width d /\
  height (resolutionOf d) = evenHeight (bounds_height d).
Proof. split; reflexivity. Qed.

(** C8. The returned resolution carries the unscaled bounds: for a
    1440x900 display with scale factor 2 the handler computes 2880x1800 and
    returns 1440x900. *)
Theorem native_resolution_is_unscaled :
  let d := mkDisplay 1440 900 2 in
  scaledWidth d = 2880 /\ scaledHeight d = 1800 /\
  getScreenResolutions (Some [d]) =
    [mkResolution 1440 900 2 "8:5" "1440×900 (8:5) - Native"] /\
  width (resolutionOf d) <> scaledWidth d /\
  height (resolutionOf d) <> evenHeight (scaledHeight d).
Proof. vm_compute. repeat split; discriminate. Qed.

End DisplayClaims.

Section ResolutionClaims.

Import Save SaveFacts.

(** C5 (as the code has it). A rendered ["WxH"] parses to its two integers
    with the height forced even; more generally a string with exactly one
    ['x'] has each side read by [parseInt].  An absent string, or one that
    does not have exactly one ['x'], gives the default 1920x1080.
    ["1920x1081"] gives 1920x1080.  The forced height is even and at most
    the height it comes from.  The command handed to the transcoder is built
    from the size so normalized. *)
Theorem resolution_normalization :
  (forall w h : Z,
     parse_resolution (Some (dec w +:+ "x" +:+ dec h)) =
     (Int w, Int (evenHeight h))) /\
  (forall a b : string,
     occurrences "x" a = 0%nat -> occurrences "x" b = 0%nat ->
     parse_resolution (Some (a +:+ "x" +:+ b)) =
     (parseInt a, evenHeight_js (parseInt b))) /\
  (forall s : string,
     occurrences "x" s <> 1%nat ->
     parse_resolution (Some s) = (Int 1920, Int 1080)) /\
  parse_resolution None = (Int 1920, Int 1080) /\
  parse_resolution (Some "1920x1081") = (Int 1920, Int 1080) /\
  (forall h : Z, Z.even (evenHeight h) = true /\ evenHeight h <= h) /\
  (forall (H : host) (d : gmap string bytes) (r : request) (cmd : ffmpeg_command),
     In cmd (transcoder_runs (actions (save H d r))) ->
     videoFilters cmd =
     scaleFilterOf (preserveAspectRatio r)
       (fst (parse_resolution (resolution r)))
       (snd (parse_resolution (resolution r)))).
Proof.
  split; [exact parse_resolution_rendered |].
  split; [exact parse_resolution_two_parts |].
  split; [exact parse_resolution_default |].
  split; [reflexivity |].
  split; [reflexivity |].
  split; [intros h; split; [apply evenHeight_even | apply evenHeight_le] |].
  intros H d r cmd. rewrite transcoder_runs_save.
  destruct (reaches_transcode H r); [| intros []].
  intros [<- | []]. reflexivity.
Qed.

(** C5, the claim as stated fails: ["axb"] is not a well-formed resolution,
    and it is parsed to [NaN] by [NaN], not to the default. *)
Lemma malformed_resolution_not_defaulted :
  ~ well_formed_resolution "axb" /\
  parse_resolution (Some "axb") = (NaN, NaN) /\
  parse_resolution (Some "axb") <> (Int 1920, Int 1080).
Proof.
  split; [| split; [reflexivity | discriminate]].
  intros (w & h & E). unfold dec in E.
  destruct (w <? 0); [discriminate |].
  destruct (udec_head (Z.to_N w)) as (c & r & Eu & Hc).
  rewrite Eu in E. simpl in E. injection E as <- _. discriminate.
Qed.

End ResolutionClaims.

(* ===================================================================== *)
(** ** Recording sessions *)
(* ===================================================================== *)

Section SessionFacts.

Import Session.

Variable join : string -> string -> string.

(** A request that finds [isRecording] set is answered at once and changes
    nothing but the list of answers. *)
Lemma start_while_recording (m : main) (request : nat) (sourceId : string)
    (audioDeviceId : option string) :
  isRecording m = true ->
  let m' := step join (StartRecording request sourceId audioDeviceId) m in
  responses m' = (responses m ++ [(request, mkResponse false "Already recording")])%list /\
  isRecording m' = isRecording m /\
  ffmpegProcess m' = ffmpegProcess m /\
  recordingPath m' = recordingPath m /\
  encryptionKey m' = encryptionKey m /\
  pending m' = pending m /\
  running m' = running m /\
  metadata_files m' = metadata_files m.
Proof.
  intros R. cbn zeta. unfold step. rewrite R. repeat split; simpl; auto.
Qed.

Lemma take_pending_length (request : nat) (l : list (nat * suspended)) :
  forall k rest,
    take_pending request l = (Some k, rest) -> length l = S (length rest).
Proof.
  induction l as [| [i k'] l IH]; simpl; intros k rest E; [discriminate |].
  destruct (Nat.eqb i request).
  - injection E as _ <-. reflexivity.
  - destruct (take_pending request l) as [found r'].
    injection E as -> <-. simpl. f_equal. eapply IH. reflexivity.
Qed.

Lemma take_pending_rest (request : nat) (l : list (nat * suspended)) k rest :
  (length l <= 1)%nat -> take_pending request l = (Some k, rest) -> rest = [].
Proof.
  intros L T. apply take_pending_length in T.
  destruct rest; [reflexivity | simpl in *; lia].
Qed.

Lemma take_pending_nonempty (request : nat) (l : list (nat * suspended)) k rest :
  take_pending request l = (Some k, rest) -> l <> [].
Proof. intros T ->. discriminate. Qed.

Lemma one_session_step (d : delivery) (m : main) :
  one_session m -> serialized d m -> one_session (step join d m).
Proof.
  intros I S. pose proof I as (Hp & Hr & Hq & Hi). 
  destruct d as [request s a | request rp ts key | request err | request
                | request err | child code]; cbn [step serialized] in *.
  - destruct (isRecording m) eqn:R; [exact I |].
    unfold one_session, suspend; cbn. rewrite S, (Hi eq_refl). cbn.
    repeat split; auto.
  - destruct (take_pending request (pending m)) as [[[s a | s a] |] rest] eqn:T;
      try exact I.
    destruct (Hq (take_pending_nonempty _ _ _ _ T)) as [Hrun Hrec].
    rewrite (take_pending_rest _ _ _ _ Hp T).
    unfold one_session; cbn. rewrite Hrun. repeat split; auto.
  - destruct (take_pending request (pending m)) as [[[s a | s a] |] rest] eqn:T;
      try exact I.
    rewrite (take_pending_rest _ _ _ _ Hp T).
    unfold one_session, respond; cbn. repeat split; auto; congruence.
  - destruct (take_pending request (pending m)) as [[[s a | s a] |] rest] eqn:T;
      try exact I.
    destruct (Hq (take_pending_nonempty _ _ _ _ T)) as [Hrun Hrec].
    rewrite (take_pending_rest _ _ _ _ Hp T).
    unfold one_session, respond; cbn. rewrite Hrun. cbn.
    repeat split; auto; congruence.
  - destruct (take_pending request (pending m)) as [[[s a | s a] |] rest] eqn:T;
      try exact I.
    rewrite (take_pending_rest _ _ _ _ Hp T).
    unfold one_session, respond; cbn. repeat split; auto; congruence.
  - destruct (existsb _ (running m)) eqn:E; [| exact I].
    unfold one_session; cbn.
    destruct (running m) as [| p [| q l]] eqn:Run; cbn in *;
      [discriminate | | lia].
    rewrite orb_false_r in E. apply Nat.eqb_eq in E.
    rewrite decide_False by (intros X; apply X, E).
    repeat split; auto.
Qed.
(** From the start of the program, requests that do not overlap never have
    more than one recording in progress. *)
Lemma one_session_serial (ds : list delivery) :
  forall m, one_session m -> serial join ds m ->
            one_session (deliver join ds m).
Proof.
  induction ds as [| d ds IH]; intros m I S; [exact I |].
  destruct S as [Sd Sr]. apply IH; [apply one_session_step |]; assumption.
Qed.

Lemma one_session_boot : one_session boot.
Proof. repeat split; auto. Qed.

Lemma serial_single_flight (ds : list delivery) :
  serial join ds boot -> (active_sessions (deliver join ds boot) <= 1)%nat.
Proof.
  intros S. apply (one_session_serial ds boot one_session_boot S).
Qed.

(** In the renderer the rejection is the disabled button: while recording,
    a click on Start changes nothing (and [startRecording], which has no
    test of [isRecording] of its own, is not run). *)
Lemma click_start_while_recording (timer : nat) (a : Renderer.app) :
  Renderer.isRecording a = true -> Renderer.clickStart timer a = Some a.
Proof.
  intros R. unfold Renderer.clickStart, Renderer.start_disabled. rewrite R.
  destruct (Renderer.selectedSource a); reflexivity.
Qed.

End SessionFacts.

Section SessionClaims.

Import Session.

(** C6. Two start requests that overlap both succeed: the second is
    delivered while the first awaits the write of its metadata file, so it
    finds [isRecording] still unset.  When the first request has started its
    recording the second resumes, replaces [recordingPath] under the running
    session and spawns a second ffmpeg child. *)
Theorem overlapping_starts_both_record :
  let first :=
    deliver posix_join
      [StartRecording 1 "1" None;
       DirectoriesReady 1 "/rec" "t1" [];
       StartRecording 2 "1" None;
       MetadataWritten 1] boot in
  let second :=
    deliver posix_join
      [DirectoriesReady 2 "/rec" "t2" []; MetadataWritten 2] first in
  (isRecording first = true /\ active_sessions first = 1%nat /\
   recordingPath first = "/rec/recording-t1" /\
   responses first = [(1%nat, mkResponse true "Recording started")]) /\
  (active_sessions second = 2%nat /\
   recordingPath second = "/rec/recording-t2" /\
   ffmpegProcess second = Some 1%nat /\
   responses second =
     [(1%nat, mkResponse true "Recording started");
      (2%nat, mkResponse true "Recording started")]).
Proof. vm_compute. repeat split. Qed.

End SessionClaims.

(* ===================================================================== *)
(** ** Concrete runs *)
(* ===================================================================== *)

Section Runs.

Import Save SaveFacts Display.

Lemma save_webm_is_a_copy_run :
  transcoder_runs (actions (save plain_host ∅ webm_request)) = [] /\
  probe_runs (actions (save plain_host ∅ webm_request)) = [] /\
  completion (save plain_host ∅ webm_request) = inr Success /\
  final_disk (save plain_host ∅ webm_request) !! "/home/u/a.webm" = Some recording.
Proof.
  destruct (save_webm_is_a_copy plain_host ∅ webm_request recording)
    as (T & P & C).
  - reflexivity.
  - discriminate.
  - reflexivity.
  - split; [exact T | split; [exact P |]].
    apply C.
    + repeat split.
    + vm_compute. discriminate.
Defined.

Lemma save_rejects_empty_buffer_run :
  completion (save plain_host ∅ empty_request) =
    inr (Failure "No recording data received. The recording may be empty.") /\
  final_disk (save plain_host ∅ empty_request) = ∅ /\
  actions (save plain_host ∅ empty_request) = [Console ErrEmptyBuffer] /\
  tempPath (snd (save plain_host ∅ empty_request)) = None.
Proof.
  apply (save_rejects_empty_buffer plain_host ∅ empty_request).
  right. reflexivity.
Defined.

Lemma save_cleans_up_run :
  final_disk (save plain_host ∅ stretch_request) !! "/tmp/temp-1700000000000.webm"
  = None.
Proof.
  apply (proj2 (proj2 (save_cleans_up plain_host ∅ stretch_request)));
    reflexivity.
Defined.

Lemma save_scale_filter_run :
  videoFilters (command_of plain_host stretch_request) = "scale=1920:1080" /\
  contains "pad" (videoFilters (command_of plain_host stretch_request)) = false.
Proof.
  apply (save_scale_filter plain_host ∅ stretch_request
           (command_of plain_host stretch_request)).
  - vm_compute. left. reflexivity.
  - reflexivity.
Defined.

Lemma probe_failure_is_not_fatal_run :
  probe_runs (actions (save plain_host ∅ stretch_request)) =
    ["/tmp/temp-1700000000000.webm"] /\
  transcoder_runs (actions (save plain_host ∅ stretch_request)) =
    [command_of plain_host stretch_request] /\
  completion (save plain_host ∅ stretch_request) = inr Success.
Proof.
  apply (probe_failure_is_not_fatal plain_host ∅ stretch_request recording).
  - reflexivity.
  - discriminate.
  - reflexivity.
  - reflexivity.
  - discriminate.
  - exact I.
Defined.

Lemma resolution_normalization_run :
  parse_resolution (Some "1920") = (Int 1920, Int 1080).
Proof.
  apply (proj1 (proj2 (proj2 resolution_normalization))).
  vm_compute. discriminate.
Defined.

Lemma aspect_ratio_label_run :
  0 < 1366 /\ 0 < 768 /\ aspectRatioOf 1366 768 = "16:9".
Proof.
  split; [lia | split; [lia |]].
  apply (proj1 (aspect_ratio_label 1366 768 ltac:(lia) ltac:(lia))).
  split; unfold Qlt; simpl; lia.
Defined.

End Runs.

Local Open Scope list_scope.

(* ===================================================================== *)
(** ** Elapsed time *)
(* ===================================================================== *)

Section TimerFacts.

Import Timer.

Lemma parseInt_zero_udec (n : N) : parseInt (String "0" (udec n)) = Int (Z.of_N n).
Proof.
  unfold parseInt. cbn [trim_start]. change (is_ws "0") with false. cbv iota.
  change (Ascii.eqb "0" "-") with false. change (Ascii.eqb "0" "+") with false.
  cbv iota beta. cbn [read_digits]. change (digit_val "0") with (Some 0).
  cbv iota beta. unfold udec. rewrite read_digits_uint.
  pose proof (to_uint_nonnil n) as Hn.
  rewrite <- (DecimalN.Unsigned.of_to n) at 2.
  unfold N.of_uint. rewrite of_uint_val.
  destruct (N.to_uint n); [contradiction | reflexivity ..].
Qed.

(** Padding keeps the number a field stands for. *)
Lemma parseInt_padStart2 (n : Z) : 0 <= n -> parseInt (padStart2 (dec n)) = Int n.
Proof.
  intros Hn. unfold padStart2.
  destruct (String.length (dec n)) as [| [| k]] eqn:L.
  - destruct (dec n) eqn:E; [| discriminate L].
    exfalso. apply (dec_nonempty n E).
  - unfold dec in *. destruct (Z.ltb_spec n 0) as [| _]; [lia |].
    change ("0" +:+ udec (Z.to_N n)) with (String "0" (udec (Z.to_N n))).
    rewrite parseInt_zero_udec. f_equal. lia.
  - apply parseInt_dec.
Qed.

Lemma numeral_padStart2 (s : string) : numeral s = true -> numeral (padStart2 s) = true.
Proof.
  intros Hs. unfold padStart2.
  destruct (String.length s) as [| [| k]]; [reflexivity | | exact Hs].
  simpl. exact Hs.
Qed.

Lemma field_free (n : Z) : occurrences ":" (padStart2 (dec n)) = 0%nat.
Proof.
  apply numeral_free; [reflexivity | apply numeral_padStart2, numeral_dec].
Qed.

(** Below one hundred a padded field is two characters wide. *)
Lemma padStart2_two (n : Z) :
  0 <= n < 100 -> String.length (padStart2 (dec n)) = 2%nat.
Proof.
  intros Hn.
  assert (A : forallb (fun k => Nat.eqb (String.length (padStart2 (dec (Z.of_nat k)))) 2)
                (seq 0 100) = true) by (vm_compute; reflexivity).
  rewrite forallb_forall in A.
  specialize (A (Z.to_nat n)). rewrite Z2Nat.id in A by lia.
  apply Nat.eqb_eq, A, in_seq. lia.
Qed.

Lemma padStart2_wide (s : string) : (2 <= String.length (padStart2 s))%nat.
Proof.
  unfold padStart2. destruct (String.length s) as [| [| k]] eqn:L.
  - simpl. lia.
  - change ("0" +:+ s) with (String "0" s). cbn [String.length]. rewrite L. lia.
  - rewrite L. lia.
Qed.

Lemma length_append (s t : string) :
  String.length (s +:+ t) = (String.length s + String.length t)%nat.
Proof. induction s as [| c s IH]; simpl; [reflexivity | rewrite IH; reflexivity]. Qed.

(** X1. For a counter that is not negative, [formatTime] shows it exactly:
    reading the three fields back gives the counter; the minutes and the
    seconds are below 60 and two characters wide, the hours at least two. *)
Theorem formatTime_round_trip (seconds : Z) :
  0 <= seconds ->
  clock_seconds (formatTime seconds) = Some seconds /\
  exists h m c : string,
    formatTime seconds = h +:+ ":" +:+ m +:+ ":" +:+ c /\
    (2 <= String.length h)%nat /\ String.length m = 2%nat /\
    String.length c = 2%nat /\
    parseInt h = Int (seconds / 3600) /\
    (exists b, parseInt m = Int b /\ 0 <= b < 60) /\
    (exists d, parseInt c = Int d /\ 0 <= d < 60).
Proof.
  intros Hs. unfold formatTime. cbn zeta.
  rewrite !Z.rem_mod_nonneg by lia.
  set (hrs := seconds / 3600). set (mins := seconds mod 3600 / 60).
  set (secs := seconds mod 60).
  assert (Hh : 0 <= hrs) by (subst hrs; Z.to_euclidean_division_equations; lia).
  assert (Hm : 0 <= mins < 60)
    by (subst mins; Z.to_euclidean_division_equations; lia).
  assert (Hc : 0 <= secs < 60)
    by (subst secs; Z.to_euclidean_division_equations; lia).
  assert (V : 3600 * hrs + 60 * mins + secs = seconds)
    by (subst hrs mins secs; Z.to_euclidean_division_equations; lia).
  split.
  - unfold clock_seconds.
    change (":" +:+ padStart2 (dec mins) +:+ ":" +:+ padStart2 (dec secs))
      with (String ":" (padStart2 (dec mins) +:+ ":" +:+ padStart2 (dec secs))).
    rewrite (split_first ":" _ _ (field_free hrs)).
    change (":" +:+ padStart2 (dec secs)) with (String ":" (padStart2 (dec secs))).
    rewrite (split_first ":" _ _ (field_free mins)).
    rewrite (split_none ":" _ (field_free secs)).
    rewrite !parseInt_padStart2 by lia. f_equal. exact V.
  - exists (padStart2 (dec hrs)), (padStart2 (dec mins)), (padStart2 (dec secs)).
    split; [reflexivity |].
    split; [apply padStart2_wide |].
    split; [apply padStart2_two; lia |].
    split; [apply padStart2_two; lia |].
    split; [apply parseInt_padStart2, Hh |].
    split; eexists; (split; [apply parseInt_padStart2; lia | lia]).
Qed.

(** X2. Below one hundred hours the clock is eight characters wide, and
    below one hour it is ["00:"] followed by what [formatDuration] shows. *)
Theorem formatTime_width (seconds : Z) :
  0 <= seconds < 360000 ->
  String.length (formatTime seconds) = 8%nat /\
  (seconds < 3600 -> formatTime seconds = "00:" +:+ formatDuration seconds).
Proof.
  intros Hs. split.
  - unfold formatTime. cbn zeta. rewrite !Z.rem_mod_nonneg by lia.
    rewrite !length_append.
    rewrite !padStart2_two by (Z.to_euclidean_division_equations; lia).
    reflexivity.
  - intros Hh. unfold formatTime, formatDuration. cbn zeta.
    rewrite (Z.div_small seconds 3600) by lia.
    rewrite (Z.rem_small seconds 3600) by lia. reflexivity.
Qed.

End TimerFacts.

(* ===================================================================== *)
(** ** The resolution picker *)
(* ===================================================================== *)

Section PickerFacts.

Import Picker.

Lemma same_size_iff (a b : resolution) :
  same_size a b = true <-> size_of a = size_of b.
Proof.
  unfold same_size, size_of. rewrite andb_true_iff, !Z.eqb_eq.
  split; [intros [-> ->]; reflexivity | intros [= -> ->]; auto].
Qed.

Lemma same_size_refl (a : resolution) : same_size a a = true.
Proof. apply same_size_iff. reflexivity. Qed.

Lemma existsb_same_size (a : resolution) (l : list resolution) :
  existsb (same_size a) l = true <-> In (size_of a) (map size_of l).
Proof.
  rewrite existsb_exists, in_map_iff. split.
  - intros (x & Hx & E). exists x. split; [| exact Hx].
    symmetry. apply same_size_iff, E.
  - intros (x & E & Hx). exists x. split; [exact Hx |].
    apply same_size_iff. symmetry. exact E.
Qed.

(** Where [findIndex] stops: at the first match. *)
Lemma findIndex_from_first {A : Type} (p : A -> bool) (pre : list A) (x : A)
    (post : list A) (i : Z) :
  p x = true ->
  findIndex_from p (pre ++ x :: post) i =
  if existsb p pre then findIndex_from p pre i else i + Z.of_nat (length pre).
Proof.
  intros Hx. revert i. induction pre as [| y pre IH]; intros i; simpl.
  - rewrite Hx. lia.
  - destruct (p y); simpl; [reflexivity |].
    rewrite IH. destruct (existsb p pre); [reflexivity | lia].
Qed.

Lemma findIndex_from_bound {A : Type} (p : A -> bool) (l : list A) (i : Z) :
  existsb p l = true -> i <= findIndex_from p l i < i + Z.of_nat (length l).
Proof.
  revert i. induction l as [| y l IH]; intros i; simpl; [discriminate |].
  destruct (p y); simpl; [lia |].
  intros E. specialize (IH (i + 1) E). lia.
Qed.

(** The duplicate filter keeps the first entry of each size. *)
Lemma filter_from_first (pre post : list resolution) :
  filter_from
    (fun res index => index =? findIndex (same_size res) (pre ++ post))
    post (Z.of_nat (length pre)) =
  first_of_each pre post.
Proof.
  revert pre. induction post as [| x post IH]; intros pre; [reflexivity |].
  cbn [filter_from first_of_each]. unfold findIndex at 1.
  rewrite (findIndex_from_first _ pre x post 0 (same_size_refl x)).
  specialize (IH (pre ++ [x])).
  rewrite <- app_assoc, length_app in IH. cbn [length app] in IH.
  replace (Z.of_nat (length pre + 1)) with (Z.of_nat (length pre) + 1) in IH by lia.
  rewrite IH.
  destruct (existsb (same_size x) pre) eqn:E.
  - pose proof (findIndex_from_bound _ pre 0 E) as B.
    destruct (Z.eqb_spec (Z.of_nat (length pre))
                (findIndex_from (same_size x) pre 0)); [lia | reflexivity].
  - rewrite Z.eqb_refl. reflexivity.
Qed.

Lemma dedupe_first (l : list resolution) : dedupe l = first_of_each [] l.
Proof. unfold dedupe. apply (filter_from_first [] l). Qed.

Lemma first_of_each_spec (r : resolution) (l : list resolution) :
  forall seen,
    In r (first_of_each seen l) <->
    exists l1 l2, l = (l1 ++ r :: l2)%list /\
                  existsb (same_size r) (seen ++ l1) = false.
Proof.
  induction l as [| x l IH]; intros seen; simpl.
  - split; [intros [] | intros ([| ? ?] & ? & E & _); discriminate E].
  - assert (Step : In r (first_of_each (seen ++ [x]) l) <->
                   exists l1 l2, l = (l1 ++ r :: l2)%list /\
                     existsb (same_size r) (seen ++ x :: l1) = false).
    { rewrite IH. split; intros (l1 & l2 & E & N); exists l1, l2;
        (split; [exact E |]).
      - rewrite <- app_assoc in N. exact N.
      - rewrite <- app_assoc. exact N. }
    destruct (existsb (same_size x) seen) eqn:S; simpl.
    + rewrite Step. split.
      * intros (l1 & l2 & -> & N). exists (x :: l1), l2. split; [reflexivity | exact N].
      * intros ([| y l1] & l2 & E & N); injection E as <- E.
        -- rewrite app_nil_r in N. congruence.
        -- exists l1, l2. split; assumption.
    + rewrite Step. split.
      * intros [<- | (l1 & l2 & -> & N)].
        -- exists [], l. rewrite app_nil_r. split; [reflexivity | exact S].
        -- exists (x :: l1), l2. split; [reflexivity | exact N].
      * intros ([| y l1] & l2 & E & N); injection E as <- E.
        -- left. reflexivity.
        -- right. exists l1, l2. split; assumption.
Qed.

Lemma first_of_each_sizes (l : list resolution) :
  forall seen,
    List.NoDup (map size_of (first_of_each seen l)) /\
    (forall s, In s (map size_of (first_of_each seen l)) <->
               In s (map size_of l) /\ ~ In s (map size_of seen)).
Proof.
  induction l as [| x l IH]; intros seen.
  - split; [constructor | intros s; simpl; tauto].
  - destruct (IH (seen ++ [x])) as [ND M].
    assert (M' : forall s, In s (map size_of (first_of_each (seen ++ [x]) l)) <->
                 In s (map size_of l) /\ ~ In s (map size_of seen) /\ s <> size_of x).
    { intros s. rewrite M, map_app, in_app_iff. simpl. intuition congruence. }
    cbn [first_of_each].
    destruct (existsb (same_size x) seen) eqn:S.
    + apply existsb_same_size in S. split; [exact ND |].
      intros s. cbn [map]. split.
      * intros I. apply M' in I. destruct I as (A & B & C).
        split; [right; exact A | exact B].
      * intros ([<- | A] & B); [contradiction |].
        apply M'. repeat split; auto. intros ->. contradiction.
    + assert (N : ~ In (size_of x) (map size_of seen)).
      { intros I. apply existsb_same_size in I. congruence. }
      split.
      * cbn [map]. constructor; [| exact ND].
        intros I. apply M' in I. destruct I as (_ & _ & C). apply C. reflexivity.
      * intros s. cbn [map]. split.
        -- intros [<- | I]; [split; [left; reflexivity | exact N] |].
           apply M' in I. destruct I as (A & B & C).
           split; [right; exact A | exact B].
        -- intros ([<- | A] & B); [left; reflexivity |].
           destruct (decide (s = size_of x)) as [-> | D]; [left; reflexivity |].
           right. apply M'. auto.
Qed.

Lemma insert_perm (a : resolution) (l : list resolution) :
  Permutation (insert a l) (a :: l).
Proof.
  induction l as [| b l IH]; simpl; [reflexivity |].
  destruct (height b - height a <=? 0); [reflexivity |].
  rewrite IH. apply perm_swap.
Qed.

Lemma sort_perm (l : list resolution) : Permutation (sort l) l.
Proof.
  induction l as [| a l IH]; simpl; [reflexivity |].
  rewrite insert_perm, IH. reflexivity.
Qed.

Lemma insert_sorted (a : resolution) (l : list resolution) :
  Sorted (fun x y => height y <= height x) l ->
  Sorted (fun x y => height y <= height x) (insert a l).
Proof.
  induction 1 as [| b l Hl IH Hb]; simpl; [repeat constructor |].
  destruct (Z.leb_spec (height b - height a) 0) as [L | L].
  - constructor; [constructor; assumption | constructor; lia].
  - constructor; [exact IH |].
    destruct l as [| c l]; simpl.
    + constructor. lia.
    + destruct (height c - height a <=? 0); constructor; [lia |].
      inversion Hb. assumption.
Qed.

Lemma sort_sorted (l : list resolution) :
  Sorted (fun x y => height y <= height x) (sort l).
Proof.
  induction l as [| a l IH]; simpl; [constructor | apply insert_sorted, IH].
Qed.

(** The sizes of the merged list are those of the native and of the
    standard entries. *)
Lemma merge_sizes (nativeResolutions : list Display.resolution) (s : Z * Z) :
  In s (map size_of (mergeResolutions nativeResolutions)) <->
  In s (map size_of (map nativeOf nativeResolutions)) \/
  In s (map size_of DEFAULT_RESOLUTIONS).
Proof.
  unfold mergeResolutions. set (all := (map nativeOf nativeResolutions ++ _)%list).
  pose proof (sort_perm (dedupe all)) as P.
  destruct (first_of_each_sizes all []) as [_ M]. rewrite <- dedupe_first in M.
  assert (E : In s (map size_of (sort (dedupe all))) <->
              In s (map size_of (dedupe all))).
  { split; apply Permutation_in, Permutation_map;
      [exact P | symmetry; exact P]. }
  rewrite E, M. subst all. rewrite map_app, in_app_iff. simpl. tauto.
Qed.

(** X3. The merged list of the picker has no two entries of the same size
    and is ordered by decreasing height; its sizes are exactly those of the
    native displays and of the five standard resolutions. *)
Theorem mergeResolutions_distinct_sorted (nativeResolutions : list Display.resolution) :
  List.NoDup (map size_of (mergeResolutions nativeResolutions)) /\
  Sorted (fun x y => height y <= height x) (mergeResolutions nativeResolutions) /\
  (forall s, In s (map size_of (mergeResolutions nativeResolutions)) <->
             In s (map size_of (map nativeOf nativeResolutions)) \/
             In s (map size_of DEFAULT_RESOLUTIONS)).
Proof.
  split; [| split; [apply sort_sorted | apply merge_sizes]].
  unfold mergeResolutions. set (all := (map nativeOf nativeResolutions ++ _)%list).
  destruct (first_of_each_sizes all []) as [ND _]. rewrite <- dedupe_first in ND.
  apply (Permutation_NoDup (l := map size_of (dedupe all))); [| exact ND].
  symmetry. apply Permutation_map, sort_perm.
Qed.

(** Every kept entry whose size is the size of a native display is a native
    entry. *)
Lemma dedupe_native_first (natives rest : list resolution) (r : resolution) :
  Forall (fun n => isNative n = true) natives ->
  In r (dedupe (natives ++ rest)) ->
  In (size_of r) (map size_of natives) ->
  isNative r = true.
Proof.
  intros Hn Hr Hs. rewrite dedupe_first in Hr.
  apply first_of_each_spec in Hr as (l1 & l2 & E & N). simpl in N.
  assert (I : In r natives).
  { apply in_map_iff in Hs as (n & En & In_n).
    apply in_split in In_n as (n1 & n2 & ->).
    assert (L : (length l1 <= length n1)%nat).
    { destruct (Nat.le_gt_cases (length l1) (length n1)) as [L | L]; [exact L |].
      exfalso.
      assert (In n l1).
      { rewrite <- app_assoc in E. simpl in E.
        assert (X : nth_error (n1 ++ n :: n2 ++ rest) (length n1) = Some n)
          by (rewrite nth_error_app2, Nat.sub_diag by lia; reflexivity).
        rewrite E, nth_error_app1 in X by lia.
        apply nth_error_In in X. exact X. }
      assert (existsb (same_size r) l1 = true).
      { apply existsb_exists. exists n. split; [assumption |].
        apply same_size_iff. symmetry. exact En. }
      congruence. }
    assert (X : nth_error (l1 ++ r :: l2) (length l1) = Some r)
      by (rewrite nth_error_app2, Nat.sub_diag by lia; reflexivity).
    rewrite <- E in X.
    destruct (Nat.eq_dec (length l1) (length n1)) as [Q | Q].
    - rewrite <- app_assoc, Q, nth_error_app2, Nat.sub_diag in X by lia.
      injection X as <-. apply in_elt.
    - rewrite <- app_assoc, nth_error_app1 in X by lia.
      apply nth_error_In in X. apply in_or_app. left. exact X. }
  rewrite List.Forall_forall in Hn. apply Hn, I.
Qed.

Lemma nativeOf_native (ds : list Display.resolution) :
  Forall (fun n => isNative n = true) (map nativeOf ds).
Proof.
  apply List.Forall_forall. intros n (d & <- & _)%in_map_iff. reflexivity.
Qed.

(** X4. Choosing, in the merged list, the size of a native display selects
    an entry flagged native, for which [setupStream] puts no limit on the
    size of the stream. *)
Theorem native_size_is_unconstrained (first : Display.resolution)
    (rest : list Display.resolution) (d : Display.resolution)
    (sourceId : string) (c : choices) :
  In d (first :: rest) ->
  let c' := chooseResolution (Display.width d) (Display.height d)
              (getScreenResolutions (Some (first :: rest)) c) in
  size_of (selectedResolution c') = (Display.width d, Display.height d) /\
  isNative (selectedResolution c') = true /\
  constraintsOf sourceId (selectedResolution c') =
    mkMandatory sourceId None None None None.
Proof.
  intros Hd. cbn zeta. unfold chooseResolution, getScreenResolutions.
  cbn [resolutions selectedResolution].
  set (p := fun r => (width r =? Display.width d) && (height r =? Display.height d)).
  set (merged := mergeResolutions (first :: rest)).
  assert (S : In (size_of (nativeOf d)) (map size_of (map nativeOf (first :: rest))))
    by (apply in_map, in_map, Hd).
  assert (Ex : exists r, In r merged /\ p r = true).
  { pose proof (proj2 (merge_sizes (first :: rest) _) (or_introl S)) as X.
    apply in_map_iff in X as (r & E & I).
    exists r. split; [exact I |].
    unfold p. injection E as -> ->. rewrite !Z.eqb_refl. reflexivity. }
  destruct (List.find p merged) as [r |] eqn:F.
  - apply find_some in F as [I Pr]. cbn [selectedResolution].
    assert (Sz : size_of r = (Display.width d, Display.height d)).
    { unfold p in Pr. apply andb_prop in Pr as [A B].
      apply Z.eqb_eq in A, B. unfold size_of. congruence. }
    assert (N : isNative r = true).
    { apply (dedupe_native_first (map nativeOf (first :: rest)) DEFAULT_RESOLUTIONS).
      - apply nativeOf_native.
      - apply (Permutation_in _ (sort_perm _)), I.
      - rewrite Sz. exact S. }
    split; [exact Sz | split; [exact N |]].
    unfold constraintsOf. rewrite N. reflexivity.
  - exfalso. destruct Ex as (r & I & Pr).
    pose proof (find_none _ _ F r I). congruence.
Qed.

Lemma dedupe_incl (l : list resolution) (r : resolution) :
  In r (dedupe l) -> In r l.
Proof.
  rewrite dedupe_first. intros (l1 & l2 & -> & _)%first_of_each_spec.
  apply in_elt.
Qed.

(** X5. Choosing a standard resolution that no display has selects that
    standard entry, and [setupStream] then pins the stream to exactly its
    width and height. *)
Theorem standard_size_is_pinned (first : Display.resolution)
    (rest : list Display.resolution) (std : resolution) (sourceId : string)
    (c : choices) :
  In std DEFAULT_RESOLUTIONS ->
  ~ In (size_of std) (map size_of (map nativeOf (first :: rest))) ->
  let c' := chooseResolution (width std) (height std)
              (getScreenResolutions (Some (first :: rest)) c) in
  selectedResolution c' = std /\
  constraintsOf sourceId (selectedResolution c') =
    mkMandatory sourceId (Some (width std)) (Some (width std))
      (Some (height std)) (Some (height std)).
Proof.
  intros Hstd Hfree. cbn zeta. unfold chooseResolution, getScreenResolutions.
  cbn [resolutions selectedResolution].
  set (p := fun r => (width r =? width std) && (height r =? height std)).
  set (merged := mergeResolutions (first :: rest)).
  assert (Ex : exists r, In r merged /\ p r = true).
  { pose proof (proj2 (merge_sizes (first :: rest) (size_of std))
                  (or_intror (in_map size_of _ _ Hstd))) as X.
    apply in_map_iff in X as (r & E & I).
    exists r. split; [exact I |].
    unfold p. injection E as -> ->. rewrite !Z.eqb_refl. reflexivity. }
  destruct (List.find p merged) as [r |] eqn:F.
  - apply find_some in F as [I Pr]. cbn [selectedResolution].
    assert (Sz : size_of r = size_of std).
    { unfold p in Pr. apply andb_prop in Pr as [A B].
      apply Z.eqb_eq in A, B. unfold size_of. congruence. }
    assert (R : r = std).
    { apply (Permutation_in _ (sort_perm _)) in I. apply dedupe_incl in I.
      apply in_app_or in I as [I | I].
      - exfalso. apply Hfree. rewrite <- Sz. apply in_map, I.
      - clear - I Hstd Sz. unfold size_of in Sz. simpl in I, Hstd.
        repeat (destruct I as [<- | I]; [| ]);
          try contradiction;
          repeat (destruct Hstd as [<- | Hstd]; [| ]);
          try contradiction; try reflexivity; discriminate Sz. }
    subst r. split; [reflexivity |].
    unfold constraintsOf.
    assert (N : isNative std = false).
    { clear - Hstd. simpl in Hstd.
      repeat (destruct Hstd as [<- | Hstd]; [reflexivity |]). contradiction. }
    rewrite N. reflexivity.
  - exfalso. destruct Ex as (r & I & Pr).
    pose proof (find_none _ _ F r I). congruence.
Qed.

End PickerFacts.

(* ===================================================================== *)
(** ** More on [save] *)
(* ===================================================================== *)

Section SaveExtras.

Import Save SaveFacts.

Lemma leave_disk_other (d : gmap string bytes) (q p : string) (residue : option bytes) :
  p <> q ->
  match residue with
  | Some rest => <[q := rest]> d
  | None => d
  end !! p = d !! p.
Proof.
  intros N. destruct residue; [| reflexivity].
  apply lookup_insert_ne. congruence.
Qed.

(** Before the [finally] block only the temp file and the destination have
    been written. *)
Lemma attempt_frame (H : host) (d : gmap string bytes) (r : request) (p : string) :
  p <> temp_path H -> p <> filePath r ->
  disk (snd (attempt H r d)) !! p = d !! p.
Proof.
  intros Nt Nf.
  destruct (buffer r) as [[| x b] |] eqn:B;
    try (rewrite attempt_empty by (rewrite B; reflexivity); reflexivity).
  destruct (writeFile_fault H) as [f |] eqn:W.
  { rewrite (attempt_write_fault H d r x b B f W). cbn [snd disk].
    apply leave_disk_other, Nt. }
  destruct (stat_fault H) as [e |] eqn:S.
  { rewrite (attempt_stat_fault H d r x b B e W S). cbn [snd disk].
    apply lookup_insert_ne. congruence. }
  destruct (String.eqb (format r) "webm") eqn:F.
  - destruct (copyFile_fault H) as [f |] eqn:C.
    + rewrite (attempt_copy_fault H d r x b B f W S F C). cbn [snd disk].
      rewrite leave_disk_other by exact Nf. apply lookup_insert_ne. congruence.
    + rewrite (attempt_copy H d r x b B W S F C). cbn [snd disk].
      rewrite !lookup_insert_ne by congruence. reflexivity.
  - rewrite (attempt_transcode H d r x b B W S F).
    destruct (ffmpeg H _ _) as [out | err residue]; cbn [snd disk].
    + rewrite !lookup_insert_ne by congruence. reflexivity.
    + rewrite leave_disk_other by exact Nf. apply lookup_insert_ne. congruence.
Qed.

(** X6. Save leaves every file other than its temp file and the destination
    as it found it, whatever fails. *)
Theorem save_touches_two_paths (H : host) (d : gmap string bytes) (r : request)
    (p : string) :
  p <> temp_path H -> p <> filePath r ->
  final_disk (save H d r) !! p = d !! p.
Proof.
  intros Nt Nf. unfold final_disk. rewrite save_run. cbn [snd].
  destruct (tempPath (snd (attempt H r d))) as [q |] eqn:T.
  - rewrite attempt_tempPath in T.
    destruct (buffer_empty (buffer r)); [discriminate |]. injection T as <-.
    rewrite cleaned_other by exact Nt. apply attempt_frame; assumption.
  - apply attempt_frame; assumption.
Qed.

(** What a success tells about the run. *)
Lemma save_success_needs (H : host) (d : gmap string bytes) (r : request) :
  completion (save H d r) = inr Success ->
  buffer_empty (buffer r) = false /\
  writeFile_fault H = None /\ stat_fault H = None /\
  (if String.eqb (format r) "webm" then copyFile_fault H = None
   else exists out, ffmpeg H (command_of H r) (buffer r) = Encoded out).
Proof.
  unfold completion. rewrite save_run. cbn [fst].
  destruct (buffer r) as [[| x b] |] eqn:B;
    try (rewrite attempt_empty by (rewrite B; reflexivity); discriminate).
  destruct (writeFile_fault H) as [f |] eqn:W.
  { rewrite (attempt_write_fault H d r x b B f W). discriminate. }
  destruct (stat_fault H) as [e |] eqn:S.
  { rewrite (attempt_stat_fault H d r x b B e W S). discriminate. }
  destruct (String.eqb (format r) "webm") eqn:F.
  - destruct (copyFile_fault H) as [f |] eqn:C.
    + rewrite (attempt_copy_fault H d r x b B f W S F C). discriminate.
    + intros _. repeat split.
  - rewrite (attempt_transcode H d r x b B W S F). unfold command_of.
    destruct (ffmpeg H _ _) as [out | err residue]; [| discriminate].
    intros _. repeat split. eauto.
Qed.

(** The destination after a copy and after an encoding. *)
Lemma save_copied (H : host) (d : gmap string bytes) (r : request)
    (x : Byte.byte) (b : bytes) :
  buffer r = Some (x :: b) ->
  writeFile_fault H = None -> stat_fault H = None ->
  String.eqb (format r) "webm" = true -> copyFile_fault H = None ->
  filePath r <> temp_path H ->
  completion (save H d r) = inr Success /\
  final_disk (save H d r) !! filePath r = Some (x :: b).
Proof.
  intros B W S F C N. unfold completion, final_disk. rewrite save_run.
  rewrite (attempt_copy H d r x b B W S F C). cbn [fst snd tempPath].
  split; [reflexivity |].
  rewrite cleaned_other by exact N. apply lookup_insert_eq.
Qed.

Lemma save_transcoded (H : host) (d : gmap string bytes) (r : request)
    (x : Byte.byte) (b : bytes) :
  buffer r = Some (x :: b) ->
  writeFile_fault H = None -> stat_fault H = None ->
  String.eqb (format r) "webm" = false ->
  filePath r <> temp_path H ->
  match ffmpeg H (command_of H r) (Some (x :: b)) with
  | Encoded out =>
      completion (save H d r) = inr Success /\
      final_disk (save H d r) !! filePath r = Some out
  | Failed err residue =>
      completion (save H d r) = inr (Failure err) /\
      final_disk (save H d r) !! filePath r =
        match residue with
        | Some rest => Some rest
        | None => d !! filePath r
        end
  end.
Proof.
  intros B W S F N. unfold completion, final_disk. rewrite save_run.
  rewrite (attempt_transcode H d r x b B W S F). unfold command_of.
  destruct (ffmpeg H _ _) as [out | err residue]; cbn [fst snd tempPath];
    (split; [reflexivity |]); rewrite cleaned_other by exact N; cbn [disk].
  - apply lookup_insert_eq.
  - destruct residue; [apply lookup_insert_eq |].
    apply lookup_insert_ne. congruence.
Qed.

(** X7. Save resolves with success exactly when the buffer holds data, the
    temp file is written and measured, and then either the format is
    ["webm"] and the copy works, or the transcoder ends without error. *)
Theorem save_success_iff (H : host) (d : gmap string bytes) (r : request) :
  completion (save H d r) = inr Success <->
  buffer_empty (buffer r) = false /\
  writeFile_fault H = None /\ stat_fault H = None /\
  (if String.eqb (format r) "webm" then copyFile_fault H = None
   else exists out, ffmpeg H (command_of H r) (buffer r) = Encoded out).
Proof.
  split; [apply save_success_needs |].
  intros (B & W & S & Last). unfold completion. rewrite save_run. cbn [fst].
  destruct (buffer r) as [[| x b] |] eqn:E; try discriminate B.
  destruct (String.eqb (format r) "webm") eqn:F.
  - rewrite (attempt_copy H d r x b E W S F Last). reflexivity.
  - rewrite (attempt_transcode H d r x b E W S F).
    destruct Last as (out & Last). unfold command_of in Last. rewrite Last.
    reflexivity.
Qed.

(** X8. On the transcode path the transcoder reads the bytes of the buffer
    and decides the outcome: its output becomes the destination and the
    result is success, or its error is the reported error and the
    destination holds what the failed run left (or what was there). *)
Theorem save_transcode_outcome (H : host) (d : gmap string bytes) (r : request)
    (b : bytes) :
  buffer r = Some b -> reaches_transcode H r = true ->
  filePath r <> temp_path H ->
  match ffmpeg H (command_of H r) (Some b) with
  | Encoded out =>
      completion (save H d r) = inr Success /\
      final_disk (save H d r) !! filePath r = Some out
  | Failed err residue =>
      completion (save H d r) = inr (Failure err) /\
      final_disk (save H d r) !! filePath r =
        match residue with
        | Some rest => Some rest
        | None => d !! filePath r
        end
  end.
Proof.
  intros B R N. unfold reaches_transcode in R. rewrite B in R.
  destruct b as [| x b]; [discriminate R |].
  cbn [buffer_empty length Nat.eqb negb andb] in R.
  apply andb_prop in R as [R F]. apply andb_prop in R as [W S].
  apply bool_decide_eq_true in W, S. apply negb_true_iff in F.
  apply save_transcoded; assumption.
Qed.

End SaveExtras.

(* ===================================================================== *)
(** ** The recorder of a stream *)
(* ===================================================================== *)

Section CaptureFacts.

Import Save SaveFacts Capture.

Variable s : settings.

(** Starts and stops leave the array alone; data with bytes is appended. *)
Lemma occur_all_chunks (os : list occurrence) :
  forall st, chunks (occur_all s os st) = chunks st ++ payloads os.
Proof.
  induction os as [| o os IH]; intros st.
  - simpl. rewrite app_nil_r. reflexivity.
  - change (occur_all s (o :: os) st) with (occur_all s os (occur s o st)).
    rewrite IH.
    destruct o as [| [blob |] | H dialog]; cbn [occur chunks payloads ondataavailable];
      try reflexivity.
    destruct (0 <? Z.of_nat (length blob)); [| reflexivity].
    rewrite <- app_assoc. reflexivity.
Qed.

Lemma payloads_nonempty (os : list occurrence) :
  Forall (fun blob => blob <> []) (payloads os).
Proof.
  induction os as [| [| [blob |] | H dialog] os IH]; simpl; auto.
  destruct (Z.ltb_spec 0 (Z.of_nat (length blob))); [| exact IH].
  constructor; [| exact IH]. intros ->. simpl in *. lia.
Qed.

Lemma concat_nonempty (l : list bytes) :
  Forall (fun blob => blob <> []) l -> l <> [] -> concat l <> [].
Proof.
  intros [| blob rest Hb _] N; [contradiction |].
  simpl. destruct blob; [contradiction | discriminate].
Qed.

(** A stop on a stream that holds data, whose dialog gives a path. *)
Lemma onstop_saves (H : host) (dialog_path : string) (l : list bytes)
    (d : gmap string bytes) :
  concat l <> [] -> dialog_path <> "" ->
  onstop H s (DialogResult (Some dialog_path)) l d =
  let out := save H d (requestOf s dialog_path (concat l)) in
  mkStopped
    ["Processing recording...";
     "Saving and converting to " +:+ toUpperCase (selectedFormat s) +:+ "...";
     match completion out with
     | inr Success => "Recording saved successfully to: " +:+ dialog_path
     | inr (Failure error) => "Error saving recording: " +:+ error
     | inl _ => "Error saving recording"
     end]
    (final_disk out) (actions out).
Proof.
  intros Hl Hp. unfold onstop.
  destruct l as [| blob l]; [contradiction Hl; reflexivity |].
  destruct (Nat.eqb_spec (length (concat (blob :: l))) 0) as [E | _].
  { destruct (concat (blob :: l)); [contradiction | discriminate E]. }
  destruct (String.eqb_spec dialog_path "") as [E | _]; [contradiction |].
  reflexivity.
Qed.

(** X9. The success status means the file is there: when a stop ends with
    "Recording saved successfully to" a path (other than the temp file),
    that path holds, for the format ["webm"], every blob with data the stream
    has delivered since it was set up, those of earlier recordings included;
    for another format it holds what the transcoder made of them. *)
Theorem success_status_means_saved (os : list occurrence) (H : host)
    (dialog_path : string) (d : gmap string bytes) :
  let st := occur_all s os (fresh d) in
  let result := onstop H s (DialogResult (Some dialog_path)) (chunks st) (disk st) in
  final_status result = "Recording saved successfully to: " +:+ dialog_path ->
  dialog_path <> temp_path H ->
  if String.eqb (selectedFormat s) "webm" then
    disk_after result !! dialog_path = Some (concat (payloads os))
  else
    exists out,
      ffmpeg H (command_of H (requestOf s dialog_path (concat (payloads os))))
        (Some (concat (payloads os))) = Encoded out /\
      disk_after result !! dialog_path = Some out.
Proof.
  cbn zeta. rewrite occur_all_chunks. cbn [fresh chunks app].
  set (d' := Capture.disk (occur_all s os (fresh d))).
  intros Hstatus Ntemp.
  assert (Hl : concat (payloads os) <> [] /\ dialog_path <> "").
  { unfold onstop, final_status in Hstatus.
    destruct (payloads os) as [| blob l] eqn:P; [discriminate Hstatus |].
    destruct (Nat.eqb_spec (length (concat (blob :: l))) 0) as [E | N];
      [discriminate Hstatus |].
    destruct (String.eqb_spec dialog_path "") as [E | N'];
      [discriminate Hstatus |].
    split; [| exact N']. intros E. rewrite E in N. apply N. reflexivity. }
  destruct Hl as [Hl Hp].
  rewrite (onstop_saves H dialog_path _ d' Hl Hp) in *. cbn zeta in *.
  unfold final_status in Hstatus. cbn [statuses List.last] in Hstatus.
  cbn [disk_after].
  set (r := requestOf s dialog_path (concat (payloads os))) in *.
  assert (Ok : completion (save H d' r) = inr Success).
  { destruct (completion (save H d' r)) as [e | [| error]];
      [discriminate Hstatus | reflexivity | discriminate Hstatus]. }
  apply save_success_needs in Ok as (B & W & S & Last).
  change (format r) with (selectedFormat s) in Last.
  change (buffer r) with (Some (concat (payloads os))) in Last.
  subst r. destruct (concat (payloads os)) as [| x b] eqn:C; [contradiction |].
  destruct (String.eqb (selectedFormat s) "webm") eqn:F.
  - apply (save_copied H d' (requestOf s dialog_path (x :: b)) x b eq_refl
             W S F Last Ntemp).
  - destruct Last as (out & E). exists out. split; [exact E |].
    pose proof (save_transcoded H d' (requestOf s dialog_path (x :: b)) x b
                  eq_refl W S F Ntemp) as T.
    rewrite E in T. apply T.
Qed.

(** With data in the buffer save starts by writing it to the temp file. *)
Lemma save_writes_buffer (H : host) (d : gmap string bytes) (r : request)
    (x : Byte.byte) (b : bytes) :
  buffer r = Some (x :: b) ->
  exists rest,
    actions (save H d r) =
    Console (LogTempPath (temp_path H))
      :: FsWriteFile (temp_path H) (x :: b) :: rest.
Proof.
  intros B. unfold actions. rewrite save_run. cbn [snd].
  rewrite attempt_tempPath, B. cbn [buffer_empty length Nat.eqb].
  destruct (cleaned_trace H (temp_path H) (snd (attempt H r d)))
    as (line & -> & _).
  destruct (writeFile_fault H) as [f |] eqn:W.
  { rewrite (attempt_write_fault H d r x b B f W). cbn. eauto. }
  destruct (stat_fault H) as [e |] eqn:S.
  { rewrite (attempt_stat_fault H d r x b B e W S). cbn. eauto. }
  destruct (String.eqb (format r) "webm") eqn:F.
  - destruct (copyFile_fault H) as [f |] eqn:C.
    + rewrite (attempt_copy_fault H d r x b B f W S F C). cbn. eauto.
    + rewrite (attempt_copy H d r x b B W S F C). cbn. eauto.
  - rewrite (attempt_transcode H d r x b B W S F).
    destruct (ffmpeg H _ _); cbn; eauto.
Qed.

(** X10. A stop on a stream that delivered no blob with data reports "no
    recording data" and does nothing else.  Otherwise the "recording is
    empty" status never shows; without a path from the dialog nothing is
    written, and with one the main process starts by writing the blobs, in
    the order they came, to the temp file. *)
Theorem stop_outcomes (os : list occurrence) (H : host) (dialog : dialog_answer)
    (d : gmap string bytes) :
  let st := occur_all s os (fresh d) in
  let result := onstop H s dialog (chunks st) (Capture.disk st) in
  (payloads os = [] ->
   result = mkStopped ["Error: No recording data collected"] (Capture.disk st) []) /\
  (payloads os <> [] ->
   ~ In "Error: Recording is empty" (statuses result) /\
   match dialog with
   | DialogResult (Some dialog_path) =>
       dialog_path <> "" ->
       exists rest,
         main_actions result =
         Console (LogTempPath (temp_path H))
           :: FsWriteFile (temp_path H) (concat (payloads os)) :: rest
   | _ => main_actions result = [] /\ disk_after result = Capture.disk st
   end).
Proof.
  cbn zeta. rewrite occur_all_chunks. cbn [fresh chunks app].
  set (d' := Capture.disk (occur_all s os (fresh d))).
  split; [intros ->; reflexivity |].
  intros N.
  pose proof (concat_nonempty _ (payloads_nonempty os) N) as C.
  assert (U : forall dlg, onstop H s dlg (payloads os) d' =
    match dlg with
    | DialogFailed _ =>
        mkStopped ["Processing recording..."; "Error saving recording"] d' []
    | DialogResult None =>
        mkStopped ["Processing recording..."; "Save cancelled"] d' []
    | DialogResult (Some p) =>
        if String.eqb p "" then
          mkStopped ["Processing recording..."; "Save cancelled"] d' []
        else onstop H s (DialogResult (Some p)) (payloads os) d'
    end).
  { intros dlg. unfold onstop.
    destruct (payloads os) as [| blob l]; [contradiction |].
    destruct (Nat.eqb_spec (length (concat (blob :: l))) 0) as [E | _].
    { destruct (concat (blob :: l)); [contradiction | discriminate E]. }
    destruct dlg as [err | [p |]]; try reflexivity.
    destruct (String.eqb p ""); reflexivity. }
  rewrite U. destruct dialog as [err | [p |]].
  - split; [| split; reflexivity].
    simpl. intros [X | [X | []]]; discriminate X.
  - destruct (String.eqb_spec p "") as [-> | Np].
    + split; [simpl; intros [X | [X | []]]; discriminate X |].
      intros Q. contradiction.
    + rewrite (onstop_saves H p _ d' C Np). cbn zeta. split.
      * cbn [statuses]. intros [X | [X | [X | []]]]; try discriminate X.
        destruct (completion _) as [e | [| error]]; discriminate X.
      * intros _. cbn [main_actions].
        destruct (concat (payloads os)) as [| x b]; [contradiction |].
        apply (save_writes_buffer H d' _ x b). reflexivity.
  - split; [| split; reflexivity].
    simpl. intros [X | [X | []]]; discriminate X.
Qed.

(** X11. What the picker holds reaches the transcoder: the command of a
    stop reads the temp file, writes the path of the dialog, and scales to
    the selected width and the selected height forced even; its bitrate is
    the selected one in kilobits (5000 for a selected 0). *)
Theorem stop_command (H : host) (dialog : dialog_answer) (l : list bytes)
    (d : gmap string bytes) (cmd : ffmpeg_command) :
  In cmd (transcoder_runs (main_actions (onstop H s dialog l d))) ->
  exists dialog_path,
    dialog = DialogResult (Some dialog_path) /\
    cmd =
    commandOf (temp_path H)
      (if selectedBitrate s =? 0 then 5000 else selectedBitrate s / 1000)
      (scaleFilterOf (Capture.preserveAspectRatio s)
         (Int (Picker.width (selectedResolution s)))
         (Int (evenHeight (Picker.height (selectedResolution s)))))
      dialog_path.
Proof.
  unfold onstop. destruct l as [| blob l]; [intros [] |].
  destruct (Nat.eqb (length (concat (blob :: l))) 0); [intros [] |].
  destruct dialog as [err | [p |]]; try (intros []).
  destruct (String.eqb p ""); [intros [] |].
  cbn [main_actions]. rewrite transcoder_runs_save.
  destruct (reaches_transcode H _); [| intros []].
  intros [<- | []]. exists p. split; [reflexivity |].
  unfold command_of. cbn [requestOf resolution bitrate filePath
                            Save.preserveAspectRatio videoBitrateOf].
  rewrite parse_resolution_rendered. reflexivity.
Qed.

End CaptureFacts.

(* ===================================================================== *)
(** ** More on display resolutions and on the probe *)
(* ===================================================================== *)

Section DisplayExtras.

Import Display.

(** X12. The handler answers with one entry per display, in order; an entry
    keeps the width of its display and has an even height, the height of the
    display or one less. *)
Theorem getScreenResolutions_entries (ds : list display) :
  Forall2
    (fun d r =>
       width r = bounds_width d /\
       Z.even (height r) = true /\
       bounds_height d - 1 <= height r <= bounds_height d)
    ds (getScreenResolutions (Some ds)).
Proof.
  induction ds as [| d ds IH]; simpl; constructor; [| exact IH].
  split; [reflexivity |].
  split; [apply evenHeight_even |].
  split; [apply evenHeight_close | apply evenHeight_le].
Qed.

Lemma ratio_scaled (k w h : Z) :
  0 < k -> 0 < h ->
  (inject_Z (k * w) / inject_Z (k * h) == inject_Z w / inject_Z h)%Q.
Proof.
  intros Hk Hh. rewrite !inject_Z_mult.
  assert (Nk : ~ (inject_Z k == 0)%Q)
    by (intros E; apply (inject_Z_injective k 0) in E; lia).
  assert (Nh : ~ (inject_Z h == 0)%Q)
    by (intros E; apply (inject_Z_injective h 0) in E; lia).
  field. split; assumption.
Qed.

Lemma band_scaled (lo hi : Q) (k w h : Z) :
  0 < k -> 0 < h ->
  xgt (xdiv (of_Z (k * w)) (of_Z (k * h))) lo
    && xlt (xdiv (of_Z (k * w)) (of_Z (k * h))) hi =
  xgt (xdiv (of_Z w) (of_Z h)) lo && xlt (xdiv (of_Z w) (of_Z h)) hi.
Proof.
  intros Hk Hh. apply eq_true_iff_eq.
  rewrite !band_test by nia. unfold in_band.
  rewrite (ratio_scaled k w h Hk Hh). reflexivity.
Qed.

Lemma reduced_label_scaled (k w h : Z) :
  0 < k -> 0 < w -> 0 < h -> reduced_label (k * w) (k * h) = reduced_label w h.
Proof.
  intros Hk Hw Hh. unfold reduced_label. cbn zeta.
  rewrite Z.gcd_mul_mono_l_nonneg by lia.
  assert (Hg : Z.gcd w h <> 0).
  { intros E. apply Z.gcd_eq_0_l in E. lia. }
  rewrite !Z.div_mul_cancel_l by lia. reflexivity.
Qed.

(** X13. The label depends on the ratio only: a display [k] times as wide
    and as high has the same label. *)
Theorem aspect_label_scale_invariant (k w h : Z) :
  0 < k -> 0 < w -> 0 < h ->
  aspectRatioOf (k * w) (k * h) = aspectRatioOf w h.
Proof.
  intros Hk Hw Hh. unfold aspectRatioOf. cbn zeta.
  rewrite !(band_scaled _ _ k w h Hk Hh).
  rewrite !calculateAspectRatio_reduced by nia.
  rewrite reduced_label_scaled by assumption. reflexivity.
Qed.

(** X14. For a display of positive size the label is always two integers
    between 1 and 100 around a colon: one of the four named ratios, the
    fallback 16:9, or the exact ratio in lowest terms. *)
Theorem aspect_label_shape (w h : Z) :
  0 < w -> 0 < h ->
  exists a b : Z,
    aspectRatioOf w h = dec a +:+ ":" +:+ dec b /\
    1 <= a <= 100 /\ 1 <= b <= 100 /\
    (In (a, b) [(16, 9); (4, 3); (3, 2); (21, 9)] \/
     (a * h = b * w /\ Z.gcd a b = 1)).
Proof.
  intros Hw Hh. unfold aspectRatioOf. cbn zeta.
  destruct (xgt _ (17 # 10) && xlt _ (18 # 10));
    [exists 16, 9; repeat split; simpl; auto; lia |].
  destruct (xgt _ (13 # 10) && xlt _ (14 # 10));
    [exists 4, 3; repeat split; simpl; auto; lia |].
  destruct (xgt _ (15 # 10) && xlt _ (16 # 10));
    [exists 3, 2; repeat split; simpl; auto; lia |].
  destruct (xgt _ (23 # 10) && xlt _ (24 # 10));
    [exists 21, 9; repeat split; simpl; auto 6; lia |].
  rewrite calculateAspectRatio_reduced by assumption. unfold reduced_label.
  cbn zeta. set (g := Z.gcd w h).
  assert (Hg : 0 < g).
  { pose proof (Z.gcd_nonneg w h) as P. fold g in P.
    destruct (Z.eq_dec g 0) as [E | N]; [| lia].
    apply Z.gcd_eq_0_l in E. lia. }
  destruct (Z.gcd_divide_l w h) as [a Ea]. destruct (Z.gcd_divide_r w h) as [b Eb].
  fold g in Ea, Eb.
  assert (Da : w / g = a) by (rewrite Ea; apply Z.div_mul; lia).
  assert (Db : h / g = b) by (rewrite Eb; apply Z.div_mul; lia).
  rewrite Da, Db.
  destruct ((100 <? a) || (100 <? b)) eqn:Cap;
    [exists 16, 9; repeat split; simpl; auto; lia |].
  apply orb_false_elim in Cap as [Ca Cb].
  apply Z.ltb_ge in Ca, Cb.
  exists a, b. split; [reflexivity |].
  split; [nia |]. split; [nia |]. right. split; [nia |].
  pose proof (Z.gcd_div_gcd w h g ltac:(lia) eq_refl) as G.
  rewrite Da, Db in G. exact G.
Qed.

End DisplayExtras.

Section ProbeExtras.

Import Save.

Lemma or_default_nonzero (n : option Z) (d : Z) : d <> 0 -> or_default n d <> 0.
Proof.
  intros Hd. unfold or_default. destruct n as [z |]; [| exact Hd].
  destruct (Z.eqb_spec z 0); assumption.
Qed.

Lemma truthy_ratio (w h : Z) :
  w <> 0 -> h <> 0 -> truthy (xdiv (of_Z w) (of_Z h)) = true.
Proof.
  intros Hw Hh. unfold xdiv, of_Z, Qzerob. simpl Qnum.
  destruct (Z.eqb_spec h 0) as [E | _]; [contradiction |].
  unfold truthy, Qzerob. apply negb_true_iff, Z.eqb_neq.
  destruct h as [| p | p]; [contradiction | |]; simpl; lia.
Qed.

(** X15. Whatever ffprobe answers, and whatever [Number] makes of the
    aspect-ratio string, the information [getVideoInfo] resolves with has a
    width and a height other than zero, and an aspect ratio, when it has
    one, that is neither zero nor [NaN]; the handler therefore logs the
    probed width and height themselves. *)
Theorem videoInfo_is_usable (H : host) (p : probe_outcome) :
  let info := fst (videoInfoOf H p) in
  info_width info <> 0 /\ info_height info <> 0 /\
  (forall a, info_displayAspectRatio info = Some a -> truthy a = true) /\
  exists ratio,
    inputDims info = LogInputDims (info_width info) (info_height info) ratio /\
    truthy ratio = true.
Proof.
  cbn zeta.
  assert (Fb : let info := fallback_info in
               info_width info <> 0 /\ info_height info <> 0 /\
               (forall a, info_displayAspectRatio info = Some a -> truthy a = true) /\
               exists ratio,
                 inputDims info = LogInputDims (info_width info) (info_height info) ratio /\
                 truthy ratio = true).
  { cbn. repeat split; try discriminate. eexists. split; reflexivity. }
  destruct p as [err | [[ss |]]]; cbn [videoInfoOf streams fst]; try exact Fb.
  destruct (List.find _ ss) as [v |]; cbn [fst]; [| exact Fb].
  set (w := or_default (stream_width v) 1920).
  set (h := or_default (stream_height v) 1080).
  assert (Hw : w <> 0) by (apply or_default_nonzero; discriminate).
  assert (Hh : h <> 0) by (apply or_default_nonzero; discriminate).
  set (a := match parse_dar H (display_aspect_ratio v) with
            | Some r => if truthy r then r else xdiv (of_Z w) (of_Z h)
            | None => xdiv (of_Z w) (of_Z h)
            end).
  assert (Ha : truthy a = true).
  { subst a. destruct (parse_dar H _) as [r |]; [| apply truthy_ratio; assumption].
    destruct (truthy r) eqn:T; [exact T | apply truthy_ratio; assumption]. }
  cbn [info_width info_height info_displayAspectRatio].
  split; [exact Hw |]. split; [exact Hh |].
  split; [intros a' [= <-]; exact Ha |].
  exists a. split; [| exact Ha].
  unfold inputDims. cbn [info_width info_height info_displayAspectRatio or_default].
  destruct (Z.eqb_spec w 0); [contradiction |].
  destruct (Z.eqb_spec h 0); [contradiction |].
  unfold or_else. rewrite Ha. reflexivity.
Qed.

End ProbeExtras.

(* ===================================================================== *)
(** ** More on recording sessions *)
(* ===================================================================== *)

Section SessionExtras.

Import Session.

Variable join : string -> string -> string.

Lemma take_pending_in (request : nat) (l : list (nat * suspended)) :
  forall k rest,
    take_pending request l = (Some k, rest) -> In (request, k) l.
Proof.
  induction l as [| [i k'] l IH]; simpl; intros k rest E; [discriminate |].
  destruct (Nat.eqb_spec i request) as [-> | _].
  - injection E as <- _. left. reflexivity.
  - destruct (take_pending request l) as [found r'].
    injection E as -> _. right. eapply IH. reflexivity.
Qed.

Lemma session_consistent_step (d : delivery) (m : main) :
  one_session m -> serialized d m -> session_consistent m ->
  session_consistent (step join d m).
Proof.
  intros I S C. pose proof I as (Hp & Hr & Hq & Hi). pose proof C as (Cr & Cp).
  destruct d as [request s a | request rp ts key | request err | request
                | request err | child code]; cbn [step serialized] in *.
  - destruct (isRecording m); [exact C |].
    split; cbn; [exact Cr |]. rewrite S. cbn. intros ? ? ? [X | []]. discriminate X.
  - destruct (take_pending request (pending m)) as [[[s a | s a] |] rest] eqn:T;
      try exact C.
    destruct (Hq (take_pending_nonempty _ _ _ _ T)) as [Hrun _].
    split; cbn.
    + rewrite Hrun. intros p [].
    + intros _ _ _ _. apply in_or_app. right. left. reflexivity.
  - destruct (take_pending request (pending m)) as [[[s a | s a] |] rest] eqn:T;
      try exact C.
    rewrite (take_pending_rest _ _ _ _ Hp T).
    split; cbn; [exact Cr | intros ? ? ? []].
  - destruct (take_pending request (pending m)) as [[[s a | s a] |] rest] eqn:T;
      try exact C.
    destruct (Hq (take_pending_nonempty _ _ _ _ T)) as [Hrun _].
    rewrite (take_pending_rest _ _ _ _ Hp T).
    split; cbn; [| intros ? ? ? []].
    rewrite Hrun. intros p [<- | []]. cbn [pid args].
    split; [reflexivity |]. split; [reflexivity |].
    apply (Cp request s a), (take_pending_in _ _ _ _ T).
  - destruct (take_pending request (pending m)) as [[[s a | s a] |] rest] eqn:T;
      try exact C.
    rewrite (take_pending_rest _ _ _ _ Hp T).
    split; cbn; [exact Cr | intros ? ? ? []].
  - destruct (existsb _ (running m)); [| exact C].
    split; cbn; [| exact Cp].
    intros p Hin. apply Cr.
    apply list_elem_of_In in Hin. apply list_elem_of_filter in Hin as [_ Hin].
    apply list_elem_of_In, Hin.
Qed.

Lemma session_consistent_serial (ds : list delivery) :
  forall m, one_session m -> session_consistent m -> serial join ds m ->
            session_consistent (deliver join ds m).
Proof.
  induction ds as [| d ds IH]; intros m I C S; [exact C |].
  destruct S as [Sd Sr].
  apply IH; [apply one_session_step | apply session_consistent_step |];
    assumption.
Qed.

(** X16. When no start request is delivered while another is in flight,
    at most one ffmpeg child is live at any time, and what [stop-recording]
    relies on holds: the live child is the process in [ffmpegProcess], it
    writes the file [recordingPath] with the extension [.mp4], and the
    metadata file of [recordingPath] has been written. *)
Theorem serial_sessions_are_consistent (ds : list delivery) :
  serial join ds boot ->
  (active_sessions (deliver join ds boot) <= 1)%nat /\
  session_consistent (deliver join ds boot).
Proof.
  intros S. split.
  - apply (one_session_serial join ds boot one_session_boot S).
  - apply session_consistent_serial; [apply one_session_boot | | exact S].
    split; cbn; intros; contradiction.
Qed.

End SessionExtras.

(* ===================================================================== *)
(** ** Stopping a recording *)
(* ===================================================================== *)

Section LifecycleFacts.

Import Session Lifecycle.

Variable join : string -> string -> string.

Lemma take_pending_sub (request : nat) (l : list (nat * suspended)) :
  forall k rest x,
    take_pending request l = (k, rest) -> In x rest -> In x l.
Proof.
  induction l as [| [i k'] l IH]; simpl; intros k rest x E Hx.
  - injection E as _ <-. contradiction.
  - destruct (Nat.eqb i request).
    + injection E as _ <-. right. exact Hx.
    + destruct (take_pending request l) as [found r'] eqn:T.
      injection E as _ <-. destruct Hx as [<- | Hx]; [left; reflexivity |].
      right. eapply IH; [reflexivity | exact Hx].
Qed.

Lemma take_in (request : nat) (l : list (nat * stop_suspended)) :
  forall k rest, take request l = (Some k, rest) -> In (request, k) l.
Proof.
  induction l as [| [i k'] l IH]; simpl; intros k rest E; [discriminate |].
  destruct (Nat.eqb_spec i request) as [-> | _].
  - injection E as <- _. left. reflexivity.
  - destruct (take request l) as [found r'].
    injection E as -> _. right. eapply IH. reflexivity.
Qed.

Lemma take_sub (request : nat) (l : list (nat * stop_suspended)) :
  forall k rest x, take request l = (k, rest) -> In x rest -> In x l.
Proof.
  induction l as [| [i k'] l IH]; simpl; intros k rest x E Hx.
  - injection E as _ <-. contradiction.
  - destruct (Nat.eqb i request).
    + injection E as _ <-. right. exact Hx.
    + destruct (take request l) as [found r'] eqn:T.
      injection E as _ <-. destruct Hx as [<- | Hx]; [left; reflexivity |].
      right. eapply IH; [reflexivity | exact Hx].
Qed.

(** What a [close] leaves of the stops in flight. *)
Lemma wake_spec (child : nat) (m : Session.main) (l : list (nat * stop_suspended)) :
  forall still answers,
    wake child m l = (still, answers) ->
    (forall x, In x still ->
       In x l \/
       exists i iv, encryptionKey m <> None /\
         x = (i, AwaitRead (recordingPath m +:+ "-metadata.json")
                   (recordingPath m +:+ "-encrypted.mp4") iv)) /\
    (answers <> [] ->
     encryptionKey m = None /\ exists i iv, In (i, AwaitClose child iv) l).
Proof.
  induction l as [| [i k] l IH]; simpl; intros still answers E.
  - injection E as <- <-. split; [intros x [] | intros N; contradiction].
  - destruct (wake child m l) as [still' answers'] eqn:Wk.
    destruct (IH _ _ eq_refl) as [IHs IHa].
    assert (Keep : (still, answers) = ((i, k) :: still', answers') ->
                   (forall x, In x still ->
                      In x ((i, k) :: l) \/
                      exists i iv, encryptionKey m <> None /\
                        x = (i, AwaitRead (recordingPath m +:+ "-metadata.json")
                                  (recordingPath m +:+ "-encrypted.mp4") iv)) /\
                   (answers <> [] ->
                    encryptionKey m = None /\
                    exists i' iv, In (i', AwaitClose child iv) ((i, k) :: l))).
    { intros [= -> ->]. split.
      - intros x [<- | Hx]; [left; left; reflexivity |].
        destruct (IHs x Hx) as [? | ?]; [left; right; assumption | right; assumption].
      - intros N. destruct (IHa N) as (K & i' & iv & Hin).
        split; [exact K |]. exists i', iv. right. exact Hin. }
    destruct k as [c iv | mp ep iv | ep]; try (apply Keep; symmetry; exact E).
    destruct (Nat.eqb_spec c child) as [-> | _]; [| apply Keep; symmetry; exact E].
    destruct (encryptionKey m) as [key |] eqn:K; injection E as <- <-.
    + split.
      * intros x [<- | Hx].
        -- right. exists i, iv. split; [discriminate | reflexivity].
        -- destruct (IHs x Hx) as [? | ?]; [left; right; assumption | right; assumption].
      * intros N. destruct (IHa N) as (K' & _). discriminate K'.
    + split.
      * intros x Hx. destruct (IHs x Hx) as [? | ?];
          [left; right; assumption | right; assumption].
      * intros _. split; [reflexivity |]. exists i, iv. left. reflexivity.
Qed.

Lemma encrypted_answer_mono (w w' : world) (r : stop_response) :
  (forall x, In x (rewrites w) -> In x (rewrites w')) ->
  encrypted_answer w r -> encrypted_answer w' r.
Proof.
  intros Sub (M & P & q & iv & E & I). repeat split; auto.
  exists q, iv. auto.
Qed.

Lemma keyed_start : keyed (start boot).
Proof.
  unfold keyed. cbn. split; [| split; [| split]].
  - intros _. split; [reflexivity |]. split; intros ? ? ? [].
  - intros ? ? ? ? [].
  - intros ? ? [].
  - intros ? ? [].
Qed.

Lemma in_app_single {A : Type} (x y : A) (l : list A) :
  In x (l ++ [y]) -> In x l \/ x = y.
Proof. intros [I | [E | []]]%in_app_or; auto. Qed.

(** The part of [keyed] that only looks at the start handlers. *)
Lemma keyed_session_step (c : Session.delivery) (m : Session.main) :
  (encryptionKey m = None ->
   isRecording m = false /\
   (forall i s a, ~ In (i, AwaitMetadata s a) (pending m))) ->
  encryptionKey (Session.step join c m) = None ->
  encryptionKey m = None /\
  isRecording (Session.step join c m) = false /\
  (forall i s a, ~ In (i, AwaitMetadata s a) (pending (Session.step join c m))).
Proof.
  intros K.
  destruct c as [request s a | request rp ts key | request err | request
                | request err | child code]; cbn [Session.step].
  - destruct (isRecording m) eqn:R; cbn; intros E;
      destruct (K E) as [R' P]; [congruence |].
    split; [exact E |]. split; [exact R |].
    intros i s' a' [I | [=]]%in_app_single. exact (P _ _ _ I).
  - destruct (take_pending request (pending m)) as [[[s a | s a] |] rest] eqn:T;
      cbn; intros E; try discriminate E;
      destruct (K E) as [R P]; auto.
  - destruct (take_pending request (pending m)) as [[[s a | s a] |] rest] eqn:T;
      cbn; intros E; destruct (K E) as [R P]; auto.
    split; [exact E |]. split; [exact R |].
    intros i s' a' I. apply (P i s' a'). eapply take_pending_sub; eauto.
  - destruct (take_pending request (pending m)) as [[[s a | s a] |] rest] eqn:T;
      cbn; intros E; destruct (K E) as [R P]; auto.
    exfalso. apply (P request s a). eapply take_pending_in; eauto.
  - destruct (take_pending request (pending m)) as [[[s a | s a] |] rest] eqn:T;
      cbn; intros E; destruct (K E) as [R P]; auto.
    exfalso. apply (P request s a). eapply take_pending_in; eauto.
  - destruct (existsb _ (running m)); cbn; intros E; destruct (K E) as [R P]; auto.
Qed.

Lemma session_step_key_kept (c : Session.delivery) (m : Session.main) :
  encryptionKey m <> None -> encryptionKey (Session.step join c m) <> None.
Proof.
  intros N.
  destruct c as [request s a | request rp ts key | request err | request
                | request err | child code]; cbn [Session.step].
  - destruct (isRecording m); exact N.
  - destruct (take_pending request (pending m)) as [[[s a | s a] |] rest];
      cbn; try exact N. discriminate.
  - destruct (take_pending request (pending m)) as [[[s a | s a] |] rest];
      cbn; exact N.
  - destruct (take_pending request (pending m)) as [[[s a | s a] |] rest];
      cbn; exact N.
  - destruct (take_pending request (pending m)) as [[[s a | s a] |] rest];
      cbn; exact N.
  - destruct (existsb _ (running m)); cbn; exact N.
Qed.

(** Every turn keeps [keyed]. *)
Lemma keyed_step (d : delivery) (w : world) :
  keyed w -> keyed (Lifecycle.step join d w).
Proof.
  intros (K & R & W & D).
  assert (Ks : forall c,
             encryptionKey (Session.step join c (main w)) = None ->
             encryptionKey (main w) = None /\
             isRecording (Session.step join c (main w)) = false /\
             (forall i s a,
                ~ In (i, AwaitMetadata s a)
                    (pending (Session.step join c (main w))))).
  { intros c. apply keyed_session_step. intros E. destruct (K E) as (A & B & _).
    split; assumption. }
  assert (Plain : forall c,
             keyed (mkWorld (Session.step join c (main w)) (stopping w)
                      (signals w) (rewrites w) (stop_responses w))).
  { intros c. split; [| split; [| split]]; cbn; try assumption.
    intros E. destruct (Ks c E) as (E0 & A & B).
    split; [exact A |]. split; [exact B |]. apply K, E0. }
  assert (Old : forall w' request r,
             (forall x, In x (rewrites w) -> In x (rewrites w')) ->
             In (request, r) (stop_responses w) -> stop_success r = true ->
             encrypted_answer w' r).
  { intros w' request r Sub I S.
    apply (encrypted_answer_mono w); [exact Sub | exact (D _ _ I S)]. }
  assert (Refused : forall w' request rq r msg,
             (forall x, In x (rewrites w) -> In x (rewrites w')) ->
             In (rq, r)
               (stop_responses w ++ [(request, mkStopResponse false msg None None)]) ->
             stop_success r = true -> encrypted_answer w' r).
  { intros w' request rq r msg Sub I S.
    apply in_app_or in I as [I | [I | []]]; [exact (Old _ _ _ Sub I S) |].
    injection I as <- <-. discriminate S. }
  assert (Rest : forall request k rest,
             take request (stopping w) = (k, rest) ->
             (encryptionKey (main w) = None ->
              isRecording (main w) = false /\
              (forall i s a, ~ In (i, AwaitMetadata s a) (pending (main w))) /\
              (forall i c iv, ~ In (i, AwaitClose c iv) rest)) /\
             (forall i mp ep iv,
                In (i, AwaitRead mp ep iv) rest ->
                exists q, mp = q +:+ "-metadata.json" /\
                          ep = q +:+ "-encrypted.mp4") /\
             (forall i ep,
                In (i, AwaitWrite ep) rest ->
                exists q iv, ep = q +:+ "-encrypted.mp4" /\
                  In (q +:+ "-metadata.json", ep, iv) (rewrites w))).
  { intros request k rest T.
    assert (Sub : forall x, In x rest -> In x (stopping w))
      by (intros x; eapply take_sub; eauto).
    split; [| split].
    - intros E. destruct (K E) as (A & B & C). split; [exact A |].
      split; [exact B |]. intros i c iv I. exact (C _ _ _ (Sub _ I)).
    - intros i mp ep iv I. exact (R _ _ _ _ (Sub _ I)).
    - intros i ep I. exact (W _ _ (Sub _ I)). }
  destruct d as [c | request iv | request pe | request err | request
                | request err]; cbn [Lifecycle.step]; unfold answer.
  - destruct c as [request s a | request rp ts key | request err | request
                  | request err | child code]; try apply Plain.
    destruct (existsb _ (running (main w))) eqn:Live;
      [| split; [| split; [| split]]; assumption].
    set (m' := Session.step join (ProcessClosed child code) (main w)).
    destruct (wake child m' (stopping w)) as [still answers] eqn:Wk.
    destruct (wake_spec child m' _ _ _ Wk) as [Ws Wa].
    split; [| split; [| split]]; cbn.
    + intros E. destruct (Ks (ProcessClosed child code) E) as (E0 & A & B).
      split; [exact A |]. split; [exact B |].
      intros i c iv I. destruct (Ws _ I) as [I' | (i' & iv' & _ & X)];
        [| discriminate X].
      destruct (K E0) as (_ & _ & C). exact (C _ _ _ I').
    + intros i mp ep iv I. destruct (Ws _ I) as [I' | (i' & iv' & _ & X)].
      * exact (R _ _ _ _ I').
      * injection X as _ -> -> _. eauto.
    + intros i ep I. destruct (Ws _ I) as [I' | (i' & iv' & _ & X)];
        [| discriminate X].
      exact (W _ _ I').
    + intros request r I S. apply in_app_or in I as [I | I];
        [apply (Old _ request); auto |].
      exfalso.
      assert (N : answers <> []) by (intros ->; contradiction).
      destruct (Wa N) as (E & i & iv & I').
      assert (E0 : encryptionKey (main w) = None).
      { destruct (encryptionKey (main w)) eqn:Q; [| reflexivity].
        exfalso.
        apply (session_step_key_kept (ProcessClosed child code) (main w));
          [rewrite Q; discriminate | exact E]. }
      destruct (K E0) as (_ & _ & C). exact (C _ _ _ I').
  - assert (Refuse :
      keyed (mkWorld (main w) (stopping w) (signals w) (rewrites w)
               (stop_responses w ++
                [(request, mkStopResponse false "Not recording" None None)]))).
    { split; [| split; [| split]]; cbn; try assumption.
      intros rq r. apply Refused. auto. }
    destruct (isRecording (main w)) eqn:Rec in |- *; [| exact Refuse].
    destruct (ffmpegProcess (main w)) as [child |]; [| exact Refuse].
    split; [| split; [| split]]; cbn.
    + intros E. destruct (K E) as (A & _). congruence.
    + intros i mp ep iv' I. apply in_app_single in I as [I | I];
        [exact (R _ _ _ _ I) | discriminate I].
    + intros i ep I. apply in_app_single in I as [I | I];
        [exact (W _ _ I) | discriminate I].
    + exact D.
  - destruct (take request (stopping w)) as [[[c iv | mp ep iv | ep] |] rest] eqn:T;
      try (split; [| split; [| split]]; assumption).
    pose proof (take_in _ _ _ _ T) as Here.
    destruct (Rest _ _ _ T) as (K' & R' & W').
    destruct (R _ _ _ _ Here) as (q & -> & ->).
    destruct pe as [error |].
    + split; [| split; [| split]]; cbn; try assumption.
      intros rq r. apply Refused. auto.
    + split; [| split; [| split]]; cbn.
      * intros E. destruct (K' E) as (A & B & C). split; [exact A |].
        split; [exact B |].
        intros i c iv' I. apply in_app_single in I as [I | I];
          [exact (C _ _ _ I) | discriminate I].
      * intros i mp ep iv' I. apply in_app_single in I as [I | I];
          [exact (R' _ _ _ _ I) | discriminate I].
      * intros i ep I. apply in_app_single in I as [I | I].
        -- destruct (W' _ _ I) as (q' & iv' & E & I').
           exists q', iv'. split; [exact E |]. apply in_or_app. left. exact I'.
        -- injection I as _ ->. exists q, iv. split; [reflexivity |].
           apply in_or_app. right. left. reflexivity.
      * intros rq r. apply Old. intros x Hx. cbn. apply in_or_app. left. exact Hx.
  - destruct (take request (stopping w)) as [[[c iv | mp ep iv | ep] |] rest] eqn:T;
      try (split; [| split; [| split]]; assumption).
    destruct (Rest _ _ _ T) as (K' & R' & W').
    split; [| split; [| split]]; cbn; try assumption.
    intros rq r. apply Refused. auto.
  - destruct (take request (stopping w)) as [[[c iv | mp ep iv | ep] |] rest] eqn:T;
      try (split; [| split; [| split]]; assumption).
    pose proof (take_in _ _ _ _ T) as Here.
    destruct (Rest _ _ _ T) as (K' & R' & W').
    destruct (W _ _ Here) as (q & iv & -> & Irw).
    split; [| split; [| split]]; cbn; try assumption.
    intros rq r I S. apply in_app_or in I as [I | [I | []]];
      [apply (Old _ rq); auto |].
    injection I as <- <-.
    split; [reflexivity |]. split; [discriminate |].
    exists q, iv. split; [reflexivity | exact Irw].
  - destruct (take request (stopping w)) as [[[c iv | mp ep iv | ep] |] rest] eqn:T;
      try (split; [| split; [| split]]; assumption).
    destruct (Rest _ _ _ T) as (K' & R' & W').
    split; [| split; [| split]]; cbn; try assumption.
    intros rq r. apply Refused. auto.
Qed.

(** X17. However requests and events interleave, a stop request that
    succeeds is answered "Recording stopped and encrypted", with a path and
    the name of an encrypted file next to a metadata file that was
    rewritten: the answer without encryption is never given. *)
Theorem stop_answers_encrypted (ds : list delivery) (request : nat)
    (r : stop_response) :
  let w := Lifecycle.deliver join ds (start boot) in
  In (request, r) (stop_responses w) -> stop_success r = true ->
  encrypted_answer w r.
Proof.
  cbn zeta.
  assert (Inv : forall w, keyed w -> keyed (Lifecycle.deliver join ds w)).
  { induction ds as [| d ds' IH]; intros w Kw; [exact Kw |].
    apply IH, keyed_step, Kw. }
  destruct (Inv _ keyed_start) as (_ & _ & _ & D). apply D.
Qed.

End LifecycleFacts.

(* ===================================================================== *)
(** ** Concrete runs of the further properties *)
(* ===================================================================== *)

Section MoreRuns.

Import Save SaveFacts.

Lemma formatTime_round_trip_run :
  clock_seconds (Timer.formatTime 3725) = Some 3725.
Proof.
  destruct (formatTime_round_trip 3725) as [E _]; [lia | exact E].
Defined.

Lemma formatTime_width_run :
  String.length (Timer.formatTime 125) = 8%nat /\
  Timer.formatTime 125 = "00:" +:+ Timer.formatDuration 125.
Proof.
  destruct (formatTime_width 125) as [L F]; [lia |].
  split; [exact L | apply F; lia].
Defined.

Lemma native_size_is_unconstrained_run :
  Picker.constraintsOf "screen:0"
    (Picker.selectedResolution
       (Picker.chooseResolution 1440 900
          (Picker.getScreenResolutions (Some [laptop]) Picker.initial_choices)))
  = Picker.mkMandatory "screen:0" None None None None.
Proof.
  refine (proj2 (proj2 (native_size_is_unconstrained laptop [] laptop "screen:0"
                          Picker.initial_choices _))).
  left. reflexivity.
Defined.

Lemma standard_size_is_pinned_run :
  Picker.constraintsOf "screen:0"
    (Picker.selectedResolution
       (Picker.chooseResolution 854 480
          (Picker.getScreenResolutions (Some [laptop]) Picker.initial_choices)))
  = Picker.mkMandatory "screen:0" (Some 854) (Some 854) (Some 480) (Some 480).
Proof.
  refine (proj2 (standard_size_is_pinned laptop [] standard_definition "screen:0"
                   Picker.initial_choices _ _)).
  - vm_compute. tauto.
  - vm_compute. intros [E | []]. discriminate E.
Defined.

Lemma save_touches_two_paths_run :
  final_disk (save plain_host {["/home/u/notes.txt" := recording]} stretch_request)
    !! "/home/u/notes.txt" = Some recording.
Proof.
  rewrite (save_touches_two_paths plain_host {["/home/u/notes.txt" := recording]}
             stretch_request "/home/u/notes.txt").
  - reflexivity.
  - vm_compute. discriminate.
  - vm_compute. discriminate.
Defined.

Lemma save_transcode_outcome_run :
  completion (save plain_host ∅ stretch_request) = inr Success /\
  final_disk (save plain_host ∅ stretch_request) !! "/home/u/a.mp4" =
    Some [Byte.x00; Byte.x00; Byte.x01].
Proof.
  refine (save_transcode_outcome plain_host ∅ stretch_request recording _ _ _).
  - reflexivity.
  - reflexivity.
  - vm_compute. discriminate.
Defined.

Lemma success_status_means_saved_run :
  Capture.disk_after
    (Capture.onstop plain_host webm_settings
       (Capture.DialogResult (Some "/home/u/a.webm"))
       (Capture.chunks
          (Capture.occur_all webm_settings
             [Capture.Started; Capture.Data (Some recording)] (Capture.fresh ∅)))
       (Capture.disk
          (Capture.occur_all webm_settings
             [Capture.Started; Capture.Data (Some recording)] (Capture.fresh ∅))))
    !! "/home/u/a.webm"
  = Some recording.
Proof.
  refine (success_status_means_saved webm_settings
            [Capture.Started; Capture.Data (Some recording)] plain_host
            "/home/u/a.webm" ∅ _ _).
  - vm_compute. reflexivity.
  - vm_compute. discriminate.
Defined.

Lemma stop_outcomes_run :
  Capture.onstop plain_host mp4_settings (Capture.DialogResult None)
    (Capture.chunks
       (Capture.occur_all mp4_settings [Capture.Started; Capture.Data None]
          (Capture.fresh ∅)))
    (Capture.disk
       (Capture.occur_all mp4_settings [Capture.Started; Capture.Data None]
          (Capture.fresh ∅)))
  = Capture.mkStopped ["Error: No recording data collected"] ∅ [].
Proof.
  refine (proj1 (stop_outcomes mp4_settings [Capture.Started; Capture.Data None]
                   plain_host (Capture.DialogResult None) ∅) _).
  reflexivity.
Defined.

Lemma stop_command_run :
  exists dialog_path,
    Capture.DialogResult (Some "/home/u/a.mp4") =
      Capture.DialogResult (Some dialog_path) /\
    commandOf "/tmp/temp-1700000000000.webm" 5000 "scale=1920:1080" "/home/u/a.mp4"
    = commandOf (temp_path plain_host)
        (if Capture.selectedBitrate mp4_settings =? 0 then 5000
         else Capture.selectedBitrate mp4_settings / 1000)
        (scaleFilterOf (Capture.preserveAspectRatio mp4_settings)
           (Int (Picker.width (Capture.selectedResolution mp4_settings)))
           (Int (evenHeight (Picker.height (Capture.selectedResolution mp4_settings)))))
        dialog_path.
Proof.
  apply (stop_command mp4_settings plain_host
           (Capture.DialogResult (Some "/home/u/a.mp4")) [recording] ∅).
  vm_compute. left. reflexivity.
Defined.

Lemma aspect_label_scale_invariant_run :
  Display.aspectRatioOf (2 * 1440) (2 * 900) = Display.aspectRatioOf 1440 900.
Proof.
  apply (aspect_label_scale_invariant 2 1440 900); lia.
Defined.

Lemma aspect_label_shape_run :
  exists a b : Z,
    Display.aspectRatioOf 1440 900 = dec a +:+ ":" +:+ dec b /\
    1 <= a <= 100 /\ 1 <= b <= 100 /\
    (In (a, b) [(16, 9); (4, 3); (3, 2); (21, 9)] \/
     (a * 900 = b * 1440 /\ Z.gcd a b = 1)).
Proof.
  apply (aspect_label_shape 1440 900); lia.
Defined.

Lemma serial_sessions_are_consistent_run :
  (Session.active_sessions (Session.deliver posix_join one_recording Session.boot)
   <= 1)%nat /\
  session_consistent (Session.deliver posix_join one_recording Session.boot).
Proof.
  apply (serial_sessions_are_consistent posix_join one_recording).
  vm_compute. repeat split.
Defined.

Lemma stop_answers_encrypted_run :
  encrypted_answer
    (Lifecycle.deliver posix_join stopped_recording (Lifecycle.start Session.boot))
    (Lifecycle.mkStopResponse true "Recording stopped and encrypted"
       (Some "/rec/recording-t1") (Some "/rec/recording-t1-encrypted.mp4")).
Proof.
  apply (stop_answers_encrypted posix_join stopped_recording 7).
  - vm_compute. left. reflexivity.
  - reflexivity.
Defined.

End MoreRuns.
